(** * Pimlico: the rule parser of [pimlico/rule.hpp]

    A shallow embedding of [Rule::add_parent_scope] and [Rule::parse], and the
    properties of the indentation-driven recursive descent they implement.

    [rule.hpp] includes [text_buffer.hpp], [syntax_error.hpp] and [term.hpp].
    The parser only talks to them through member calls, so the cursor and the
    term sub-parser are interfaces here (type classes); every theorem about
    [Rule.parse] holds for all their implementations.  A string-backed
    implementation follows the parser, for running it on text. *)

From Stdlib Require Import List String Ascii Bool NArith ZArith Lia.
Import ListNotations.
Local Open Scope string_scope.
Local Open Scope list_scope.

(** A [std::shared_ptr<T>] that is only ever compared with [nullptr] and
    dereferenced: the null pointer or an owned value. *)
Definition shared_ptr (T : Type) : Type := option T.
Abbreviation nullptr := None (only parsing).

(** [unsigned int] arithmetic wraps modulo [2^32]. *)
Definition UINT_MOD : N := 4294967296.
Definition uint (n : N) : N := (n mod UINT_MOD)%N.
Arguments uint : simpl never.

(** A [for] loop that updates every element of a vector in place, where the
    update of an element may throw ([None]). *)
Section ForEach.
Context {A : Type} (update : A -> option A).

Fixpoint for_each (elements : list A) : option (list A) :=
  match elements with
  | [] => Some []
  | element :: elements =>
    match update element with
    | None => None
    | Some element =>
      match for_each elements with
      | None => None
      | Some elements => Some (element :: elements)
      end
    end
  end.
End ForEach.

(** ** The cursor: [TextBuffer] *)
Module TextBuffer.

(** The buffer object has a public, assignable member [position]
    ([rule->position = buffer.position], [buffer.position = rule->position]);
    [text] stands for all its other members. *)
Record t {Position Text : Type} : Type := mk {
  position : Position;
  text : Text
}.
Arguments t : clear implicits.

(** The members of [TextBuffer] and [TextBuffer::Position] that [rule.hpp]
    uses.  Observers return a value; [read] and the skips advance the
    cursor, which is returned. *)
Class Ops (Position Text : Type) : Type := {
  line_number : Position -> N;
  indentation : t Position Text -> N;
  indentation_delta : N -> t Position Text -> Z;
  end_reached : t Position Text -> bool;
  peek : t Position Text -> ascii;
  peek_char : ascii -> t Position Text -> bool;
  read : t Position Text -> ascii * t Position Text;
  read_char : ascii -> t Position Text -> bool * t Position Text;
  read_string : string -> t Position Text -> bool * t Position Text;
  skip_space : t Position Text -> t Position Text;
  skip_space_flag : bool -> t Position Text -> t Position Text;
  skip_whitespace : t Position Text -> t Position Text;
  skip_block : t Position Text -> t Position Text
}.

Definition set_position {Position Text} (p : Position) (b : t Position Text)
  : t Position Text :=
  {| position := p; text := text b |}.

End TextBuffer.

(** ** Diagnostics: [SyntaxError] *)
Module SyntaxError.

(** Modelled from the spec: [syntax_error.hpp] is missing.  A diagnostic is
    a record of a message and a position; [SyntaxError error(message, buffer)]
    takes the position the buffer has at that moment. *)
Record t {Position : Type} : Type := mk {
  message : string;
  position : Position
}.
Arguments t : clear implicits.

Definition make {Position Text} (msg : string) (b : TextBuffer.t Position Text)
  : t Position :=
  {| message := msg; position := TextBuffer.position b |}.

End SyntaxError.

(** ** What a call yields *)

(** [ParseLogicError] is thrown by [Rule::parse]; [std::get] on the wrong
    alternative of a [std::variant] throws [std::bad_variant_access]. *)
Inductive exception {Position : Type} : Type :=
| ParseLogicError (message : string) (position : Position)
| bad_variant_access.
Arguments exception : clear implicits.

(** A call on the shared cursor and diagnostics sink returns a value, throws,
    or has not finished within the fuel it was given.  The cursor and the sink
    are passed by reference, so both outcomes carry their final state. *)
Inductive result {Position Text : Type} (A : Type) : Type :=
| Return (a : A) (buffer : TextBuffer.t Position Text)
         (errors : list (SyntaxError.t Position))
| Throw (e : exception Position) (buffer : TextBuffer.t Position Text)
        (errors : list (SyntaxError.t Position))
| Diverge.
Arguments result : clear implicits.
Arguments Return {Position Text A} a buffer errors.
Arguments Throw {Position Text A} e buffer errors.
Arguments Diverge {Position Text A}.

(** ** The term sub-parser: [Term::parse] *)
Module Term.

(** [Term::parse(buffer, errors, true)]: a term pointer, or [nullptr]. *)
Class Parser (Position Text Term : Type) : Type :=
  parse : TextBuffer.t Position Text -> list (SyntaxError.t Position) ->
          bool -> result Position Text (shared_ptr Term).

(** What the rule parser is told about the term parser: it only appends
    to the sink, it appends nothing when it returns a term, and it appends
    at least one diagnostic when it returns [nullptr]. *)
Definition reports_failures {Position Text Term}
    `{!Parser Position Text Term} : Prop :=
  forall buffer errors flag term buffer' errors',
    parse buffer errors flag = Return term buffer' errors' ->
    exists added,
      errors' = errors ++ added /\
      (term <> None -> added = []) /\
      (term = None -> added <> []).

(** [stream << *value], line 62: the text that the [operator<<] of [Term]
    writes.  It is declared in [term.hpp], which is missing, and is taken as
    a parameter. *)
Class Printer (Term : Type) : Type :=
  print : Term -> string.

End Term.

(** ** Rules *)
Module Rule.

(** [std::variant<std::shared_ptr<Term>, std::vector<std::shared_ptr<Rule>>>] *)
Inductive variant (Term Rule : Type) : Type :=
| term_value (term : shared_ptr Term)
| children_value (children : list Rule).
Arguments term_value {Term Rule} term.
Arguments children_value {Term Rule} children.

#[warnings="-register-all"]
Inductive t {Position Term : Type} : Type := mk {
  value : variant Term t;
  position : Position;
  scope : list string;
  name : string;
  terminal : bool
}.
Arguments t : clear implicits.
Arguments mk {Position Term} value position scope name terminal.

Section Parser.
Context {Position Text Term : Type}.
Context `{!TextBuffer.Ops Position Text}.
Context `{!Term.Parser Position Text Term}.

Abbreviation Rule := (t Position Term).
Abbreviation Buffer := (TextBuffer.t Position Text).
Abbreviation Errors := (list (SyntaxError.t Position)).

(** [Rule::add_parent_scope], lines 42-50.  The children are reached
    through shared pointers, so the update is in place; the tree is
    returned.  [None] is [std::bad_variant_access]: a rule flagged
    non-terminal whose [value] holds a term. *)
Fixpoint add_parent_scope (parent : string) (rule : Rule) : option Rule :=
  match rule with
  | mk value position scope name terminal =>
    let scope := scope ++ [parent] in
    if negb terminal then
      match value with
      | term_value _ => None
      | children_value children =>
        match for_each (add_parent_scope parent) children with
        | None => None
        | Some children =>
          Some (mk (children_value children) position scope name terminal)
        end
      end
    else Some (mk value position scope name terminal)
  end.

(** [new Rule()], line 87, with [rule->position = buffer.position],
    line 89.  The parentheses value-initialise the object: the class has
    no user-provided constructor, so [terminal] starts as [false], the
    variant holds its first alternative (a null term pointer), and the
    name and the scope are empty. *)
Definition new_Rule (position : Position) : Rule :=
  {| value := term_value nullptr;
     position := position;
     scope := [];
     name := "";
     terminal := false |}.

(** [(character >= 'a' && character <= 'z') || character == '_'] *)
Definition is_name_character (character : ascii) : bool :=
  ((97 <=? N_of_ascii character)%N && (N_of_ascii character <=? 122)%N)
  || Ascii.eqb character "_".

(** The loop of lines 103-109; [name] is [rule->name] so far. *)
Fixpoint scan_name (fuel : nat) (buffer : Buffer) (name : string)
  : option (string * Buffer) :=
  match fuel with
  | O => None
  | S fuel =>
    if is_name_character (TextBuffer.peek buffer) then
      let (character, buffer) := TextBuffer.read buffer in
      scan_name fuel buffer (name ++ String character "")%string
    else Some (name, buffer)
  end.

(** Lines 178-189 and 199: what follows the [break] of the child loop. *)
Definition finish_children (rule : Rule) (buffer : Buffer) (errors : Errors)
    (errors_found : bool) (children : list Rule)
  : result Position Text (shared_ptr Rule) :=
  if errors_found then Return nullptr buffer errors
  else
    match children with
    | [] =>
      let buffer := TextBuffer.set_position (position rule) buffer in
      let message :=
        ("no children found for name-extended " ++
         "rule '" ++ name rule ++ "'")%string in
      Return nullptr buffer (errors ++ [SyntaxError.make message buffer])
    | _ :: _ =>
      Return (Some (mk (children_value children) (position rule)
                       (scope rule) (name rule) (terminal rule)))
             buffer errors
    end.

(** The child loop of lines 145-176, followed by [finish_children].
    [parse_child] is [Rule::parse(_, _, parent_count + 1)].  A [return] or
    a [throw] inside the loop leaves [Rule::parse] itself. *)
Fixpoint parse_children
    (parse_child : Buffer -> Errors -> result Position Text (shared_ptr Rule))
    (fuel : nat) (rule : Rule) (buffer : Buffer) (errors : Errors)
    (errors_found : bool) (children : list Rule)
  : result Position Text (shared_ptr Rule) :=
  match fuel with
  | O => Diverge
  | S fuel =>
    let indentation_delta :=
      TextBuffer.indentation_delta
        (TextBuffer.line_number (position rule)) buffer in
    if (indentation_delta <=? 0)%Z then
      finish_children rule buffer errors errors_found children
    else if negb (indentation_delta =? 4)%Z then
      let buffer := TextBuffer.skip_whitespace buffer in
      let error :=
        SyntaxError.make "unexpected indentation increase" buffer in
      Return nullptr (TextBuffer.skip_block buffer) (errors ++ [error])
    else
      let buffer := TextBuffer.skip_whitespace buffer in
      match parse_child buffer errors with
      | Return None buffer errors =>
        parse_children parse_child fuel rule
          (TextBuffer.skip_block buffer) errors true children
      | Return (Some child) buffer errors =>
        if negb (TextBuffer.end_reached buffer)
           && negb (TextBuffer.peek_char "010" buffer) then
          Throw (ParseLogicError "incomplete rule parse"
                   (TextBuffer.position buffer)) buffer errors
        else
          match add_parent_scope (name rule) child with
          | None => Throw bad_variant_access buffer errors
          | Some child =>
            parse_children parse_child fuel rule buffer errors
              errors_found (children ++ [child])
          end
      | Throw e buffer errors => Throw e buffer errors
      | Diverge => Diverge
      end
  end.

(** [Rule::parse], lines 83-200.  The two loops are bounded by the fuel;
    [start_indentation], line 141, is a measurement that is never read. *)
Fixpoint parse (fuel : nat) (buffer : Buffer) (errors : Errors)
    (parent_count : N) : result Position Text (shared_ptr Rule) :=
  match fuel with
  | O => Diverge
  | S fuel =>
    let rule := new_Rule (TextBuffer.position buffer) in
    let indentation := TextBuffer.indentation buffer in
    if negb (indentation mod 4 =? 0)%N then
      let error := SyntaxError.make "invalid indentation level" buffer in
      Return nullptr buffer (errors ++ [error])
    else if negb (indentation =? uint (parent_count * 4))%N then
      let error :=
        SyntaxError.make "unexpected indentation increase" buffer in
      Return nullptr buffer (errors ++ [error])
    else
      match scan_name fuel buffer (name rule) with
      | None => Diverge
      | Some (rule_name, buffer) =>
        let rule := mk (value rule) (position rule) (scope rule)
                       rule_name (terminal rule) in
        if String.eqb (name rule) "" then
          Throw (ParseLogicError "no rule found"
                   (TextBuffer.position buffer)) buffer errors
        else
          let buffer := TextBuffer.skip_space buffer in
          let (colon, buffer) := TextBuffer.read_char ":" buffer in
          if colon then
            let rule := mk (value rule) (position rule) (scope rule)
                           (name rule) true in
            let buffer := TextBuffer.skip_space_flag true buffer in
            match Term.parse buffer errors true with
            | Return None buffer errors =>
              Return nullptr (TextBuffer.skip_block buffer) errors
            | Return (Some term) buffer errors =>
              Return (Some (mk (term_value (Some term)) (position rule)
                               (scope rule) (name rule) (terminal rule)))
                     buffer errors
            | Throw e buffer errors => Throw e buffer errors
            | Diverge => Diverge
            end
          else
            let (dots, buffer) := TextBuffer.read_string "..." buffer in
            if dots then
              let buffer := TextBuffer.skip_space_flag true buffer in
              let (errors, errors_found) :=
                if negb (TextBuffer.peek_char "010" buffer) then
                  (errors ++ [SyntaxError.make
                                "trailing characters after '...'" buffer],
                   true)
                else (errors, false) in
              parse_children
                (fun buffer errors =>
                   parse fuel buffer errors (uint (parent_count + 1)))
                fuel rule buffer errors errors_found []
            else
              let error :=
                SyntaxError.make "expected ':' or '...'" buffer in
              Return nullptr (TextBuffer.skip_block buffer)
                     (errors ++ [error])
      end
  end.

(** The state in which [Rule::parse] enters its child loop, line 145:
    the rule built so far, the cursor, the sink and [errors_found].
    [None] when the call does not get there, because it returns or throws
    before, or runs out of fuel in the loop of the name. *)
Definition child_loop_entry (fuel : nat) (buffer : Buffer)
    (errors : Errors) (parent_count : N)
  : option (Rule * Buffer * Errors * bool) :=
  let indentation := TextBuffer.indentation buffer in
  if negb (indentation mod 4 =? 0)%N then None
  else if negb (indentation =? uint (parent_count * 4))%N then None
  else
    match scan_name fuel buffer "" with
    | None => None
    | Some (rule_name, buffer') =>
      if String.eqb rule_name "" then None
      else
        let (colon, buffer') :=
          TextBuffer.read_char ":" (TextBuffer.skip_space buffer') in
        if colon then None
        else
          let (dots, buffer') := TextBuffer.read_string "..." buffer' in
          if dots then
            let buffer' := TextBuffer.skip_space_flag true buffer' in
            let rule :=
              mk (term_value nullptr) (TextBuffer.position buffer) []
                 rule_name false in
            if negb (TextBuffer.peek_char "010" buffer') then
              Some (rule, buffer',
                    errors ++ [SyntaxError.make
                                 "trailing characters after '...'" buffer'],
                    true)
            else Some (rule, buffer', errors, false)
          else None
    end.

(** *** The invariants of a rule tree *)

(** The discriminant and the payload agree, in the rule and below it:
    a terminal rule holds a term (not a null pointer), a non-terminal
    rule holds a non-empty vector of children. *)
Fixpoint well_formed (rule : Rule) : bool :=
  match rule with
  | mk (term_value term) _ _ _ terminal =>
    terminal && match term with Some _ => true | None => false end
  | mk (children_value children) _ _ _ terminal =>
    negb terminal
    && match children with [] => false | _ :: _ => true end
    && forallb well_formed children
  end.

Fixpoint names_eqb (names names' : list string) : bool :=
  match names, names' with
  | [], [] => true
  | n :: names, n' :: names' => String.eqb n n' && names_eqb names names'
  | _, _ => false
  end.

(** [scoped_innermost_first ancestors rule]: the scope of [rule] is
    [ancestors], and the scope of a rule below it is the names of the
    rules that enclose it, the nearest first, followed by [ancestors]. *)
Fixpoint scoped_innermost_first (ancestors : list string) (rule : Rule)
  : bool :=
  match rule with
  | mk value _ scope name _ =>
    names_eqb scope ancestors
    && match value with
       | term_value _ => true
       | children_value children =>
         forallb (scoped_innermost_first (name :: ancestors)) children
       end
  end.

(** The same with the outermost name first, as the scope is described:
    [enclosing] lists the enclosing rules from the outermost one. *)
Fixpoint scoped_outermost_first (enclosing : list string) (rule : Rule)
  : bool :=
  match rule with
  | mk value _ scope name _ =>
    names_eqb scope enclosing
    && match value with
       | term_value _ => true
       | children_value children =>
         forallb (scoped_outermost_first (enclosing ++ [name])) children
       end
  end.

(** The rules of a tree, the root first. *)
Fixpoint rules_of (rule : Rule) : list Rule :=
  rule ::
  match value rule with
  | term_value _ => []
  | children_value children => flat_map rules_of children
  end.

End Parser.

(** *** The printer: [operator<<] *)

(** Why a call of [operator<<] does not return: [std::get] threw
    [std::bad_variant_access], a null term pointer was dereferenced, or the
    indentation loop of lines 55-56 does not end. *)
Inductive stop : Type :=
| threw_bad_variant_access
| dereferenced_null
| never_ends.

(** What a call of [operator<<] does to the stream: it returns after having
    written [text], or it stops, [text] being what it wrote before for
    certain. *)
Inductive printed : Type :=
| written (text : string)
| stopped (why : stop) (text : string).

(** [text] was written, and then what [rest] describes happens. *)
Definition after (text : string) (rest : printed) : printed :=
  match rest with
  | written more => written (text ++ more)%string
  | stopped why more => stopped why (text ++ more)%string
  end.

(** The loop of lines 72-76 over the children, [print] being the recursive
    [stream << *child] and [is_terminal] the test [child->terminal]. *)
Section PrintEach.
Context {A : Type} (print : A -> printed) (is_terminal : A -> bool).

Fixpoint print_each (children : list A) : printed :=
  match children with
  | [] => written ""
  | child :: children =>
    match print child with
    | written text =>
      after (if is_terminal child then text ++ String "010" "" else text)%string
            (print_each children)
    | stopped why text => stopped why text
    end
  end.
End PrintEach.

Section Printer.
Context {Position Term : Type}.
Context `{!Term.Printer Term}.

Abbreviation Rule := (t Position Term).

(** The loop of lines 55-56 when it ends: four spaces for each name of the
    scope. *)
Fixpoint indent (levels : nat) : string :=
  match levels with
  | O => ""
  | S levels => ("    " ++ indent levels)%string
  end.

(** [operator<<], lines 52-80.  The counter of the indentation loop is an
    [unsigned int] compared with [scope.size()]: it wraps before it reaches
    a size of [2^32] or more, and the loop then never ends. *)
Fixpoint print (rule : Rule) : printed :=
  match rule with
  | mk value _ scope name is_terminal =>
    if (UINT_MOD <=? N.of_nat (List.length scope))%N then stopped never_ends ""
    else
      let indentation := indent (List.length scope) in
      if is_terminal then
        match value with
        | term_value (Some term) =>
          written (indentation ++ name ++ ": " ++ Term.print term)%string
        | term_value None => stopped dereferenced_null indentation
        | children_value _ => stopped threw_bad_variant_access indentation
        end
      else
        match value with
        | term_value _ => stopped threw_bad_variant_access indentation
        | children_value children =>
          after (indentation ++ name ++ "..." ++ String "010" "")%string
                (print_each print terminal children)
        end
  end.

(** *** Rule trees, seen from outside *)

(** The tree with every scope emptied: all of it but the scopes. *)
Fixpoint erase_scopes (rule : Rule) : Rule :=
  match rule with
  | mk value position _ name terminal =>
    mk match value with
       | term_value term => term_value term
       | children_value children => children_value (map erase_scopes children)
       end
       position [] name terminal
  end.

(** Every rule that [add_parent_scope] reaches and that is flagged
    non-terminal holds children: [std::get] at line 46 does not throw. *)
Fixpoint descends (rule : Rule) : bool :=
  match rule with
  | mk value _ _ _ terminal =>
    if negb terminal then
      match value with
      | term_value _ => false
      | children_value children => forallb descends children
      end
    else true
  end.

(** The size of each scope in the tree is the depth of its rule, counted
    from [depth] at the root. *)
Fixpoint depth_scoped (depth : nat) (rule : Rule) : bool :=
  match rule with
  | mk value _ scope _ _ =>
    Nat.eqb (List.length scope) depth
    && match value with
       | term_value _ => true
       | children_value children => forallb (depth_scoped (S depth)) children
       end
  end.

(** No scope in the tree has [2^32] names or more. *)
Definition short_scopes (rule : Rule) : bool :=
  forallb (fun rule => (N.of_nat (List.length (scope rule)) <? UINT_MOD)%N)
          (rules_of rule).

(** A name as the grammar has it: not empty, of [a-z_] only. *)
Definition valid_name (name : string) : bool :=
  negb (String.eqb name "")
  && forallb is_name_character (list_ascii_of_string name).

Fixpoint join (texts : list string) : string :=
  match texts with
  | [] => ""
  | text :: texts => (text ++ join texts)%string
  end.

(** What follows the name on the line of a rule. *)
Definition body (rule : Rule) : string :=
  match value rule with
  | term_value (Some term) => (": " ++ Term.print term)%string
  | _ => "..."
  end.

(** The line of a rule: indented by its scope, the name, the body. *)
Definition line (rule : Rule) : string :=
  (indent (List.length (scope rule)) ++ name rule ++ body rule)%string.

(** The lines of a tree: the line of each of its rules, the root first, each
    ended by a newline; a terminal rule on its own is its line, not ended. *)
Definition listing (rule : Rule) : string :=
  if terminal rule then line rule
  else join (map (fun rule => line rule ++ String "010" "")%string
                 (rules_of rule)).

(** The same lines with the indentation taken from the depth in the tree
    instead of the scope. *)
Fixpoint outline (depth : nat) (rule : Rule) : list string :=
  match rule with
  | mk value _ _ name _ =>
    (indent depth ++ name ++
     match value with
     | term_value (Some term) => ": " ++ Term.print term
     | _ => "..."
     end ++ String "010" "")%string
    :: match value with
       | term_value _ => []
       | children_value children => flat_map (outline (S depth)) children
       end
  end.

End Printer.
End Rule.

(** ** A cursor over a string, and a term parser, to run the parser on text *)
Module StringBuffer.

(** Modelled from the spec: [text_buffer.hpp] is missing.  A position is a
    snapshot of the cursor: the index into the text and the line and column
    (both from 1) it stands for. *)
Record Position : Type := {
  index : nat;
  line : N;
  column : N
}.

Definition Buffer : Type := TextBuffer.t Position string.

Definition start (source : string) : Buffer :=
  {| TextBuffer.position := {| index := 0; line := 1; column := 1 |};
     TextBuffer.text := source |}.

Definition newline : ascii := "010".

(** The characters from the cursor to the end of the text. *)
Definition remaining (b : Buffer) : list ascii :=
  skipn (index (TextBuffer.position b))
        (list_ascii_of_string (TextBuffer.text b)).

Definition advance (c : ascii) (p : Position) : Position :=
  if Ascii.eqb c newline
  then {| index := S (index p); line := line p + 1; column := 1 |}
  else {| index := S (index p); line := line p; column := column p + 1 |}.

Fixpoint advance_over (cs : list ascii) (p : Position) : Position :=
  match cs with
  | [] => p
  | c :: cs => advance_over cs (advance c p)
  end.

Definition move (p : Position) (b : Buffer) : Buffer :=
  TextBuffer.set_position p b.

(** Modelled from the spec: [end_reached() -> bool], the end-of-input test. *)
Definition end_reached (b : Buffer) : bool :=
  match remaining b with [] => true | _ :: _ => false end.

(** Modelled from the spec: [peek() -> char], character lookahead; the NUL
    character at the end of the input. *)
Definition peek (b : Buffer) : ascii :=
  match remaining b with [] => zero | c :: _ => c end.

(** Modelled from the spec: [peek(char) -> bool], is this character next. *)
Definition peek_char (c : ascii) (b : Buffer) : bool :=
  match remaining b with [] => false | c' :: _ => Ascii.eqb c c' end.

(** Modelled from the spec: [read() -> char], character consumption. *)
Definition read (b : Buffer) : ascii * Buffer :=
  match remaining b with
  | [] => (zero, b)
  | c :: _ => (c, move (advance c (TextBuffer.position b)) b)
  end.

(** Modelled from the spec: [read(literal) -> bool], literal-token matching:
    the literal is consumed when it is next, nothing is otherwise. *)
Fixpoint starts_with (literal cs : list ascii) : bool :=
  match literal, cs with
  | [], _ => true
  | _ :: _, [] => false
  | l :: literal, c :: cs => Ascii.eqb l c && starts_with literal cs
  end.

Definition read_string (literal : string) (b : Buffer) : bool * Buffer :=
  let literal := list_ascii_of_string literal in
  if starts_with literal (remaining b)
  then (true, move (advance_over literal (TextBuffer.position b)) b)
  else (false, b).

Definition read_char (c : ascii) (b : Buffer) : bool * Buffer :=
  read_string (String c "") b.

Definition is_space (c : ascii) : bool :=
  Ascii.eqb c " " || Ascii.eqb c "009".

Definition is_whitespace (c : ascii) : bool :=
  is_space c || Ascii.eqb c newline || Ascii.eqb c "013"
  || Ascii.eqb c "011" || Ascii.eqb c "012".

(** Modelled from the spec: [skip_space(allow_newline: bool)], space
    skipping within a line; with the flag, a backslash followed by a newline
    (a line continuation) is skipped as well.  A bare newline is never
    skipped: line 133 of [rule.hpp] expects to find it. *)
Fixpoint skip_space_from (allow_newline : bool) (cs : list ascii)
    (p : Position) : Position :=
  match cs with
  | [] => p
  | c :: cs' =>
    if is_space c then skip_space_from allow_newline cs' (advance c p)
    else
      match cs' with
      | c' :: cs'' =>
        if allow_newline && Ascii.eqb c "\" && Ascii.eqb c' newline
        then skip_space_from allow_newline cs'' (advance c' (advance c p))
        else p
      | [] => p
      end
  end.

Definition skip_space_flag (allow_newline : bool) (b : Buffer) : Buffer :=
  move (skip_space_from allow_newline (remaining b) (TextBuffer.position b)) b.

Definition skip_space (b : Buffer) : Buffer := skip_space_flag false b.

(** Modelled from the spec: [skip_whitespace()], skipping of spaces and of
    line breaks. *)
Fixpoint skip_whitespace_from (cs : list ascii) (p : Position) : Position :=
  match cs with
  | [] => p
  | c :: cs =>
    if is_whitespace c then skip_whitespace_from cs (advance c p) else p
  end.

Definition skip_whitespace (b : Buffer) : Buffer :=
  move (skip_whitespace_from (remaining b) (TextBuffer.position b)) b.

(** The lines of a text, without their newline characters. *)
Fixpoint lines_of (cs : list ascii) (current : list ascii)
  : list (list ascii) :=
  match cs with
  | [] => [rev current]
  | c :: cs =>
    if Ascii.eqb c newline then rev current :: lines_of cs []
    else lines_of cs (c :: current)
  end.

(** The leading-whitespace width of a line: its leading spaces. *)
Fixpoint leading_spaces (cs : list ascii) : N :=
  match cs with
  | c :: cs => if Ascii.eqb c " " then 1 + leading_spaces cs else 0
  | [] => 0
  end.

(** The indentation of the line with this number; [0] where the text has
    no such line. *)
Definition line_indentation (number : N) (b : Buffer) : N :=
  leading_spaces
    (nth (N.to_nat number - 1)
         (lines_of (list_ascii_of_string (TextBuffer.text b)) []) []).

(** Modelled from the spec: [indentation() -> uint], the indentation
    measurement of the current line. *)
Definition indentation (b : Buffer) : N :=
  line_indentation (line (TextBuffer.position b)) b.

(** Modelled from the spec: [indentation_delta(reference_line) -> int], the
    indentation delta of the next line relative to a reference line. *)
Definition indentation_delta (reference_line : N) (b : Buffer) : Z :=
  (Z.of_N (line_indentation (line (TextBuffer.position b) + 1) b)
   - Z.of_N (line_indentation reference_line b))%Z.

(** Modelled from the spec: [skip_block()], the recovery primitive that
    advances the cursor past the remainder of the current indented block:
    to the end of the current line, and on over every following line that is
    indented deeper than the current one.  The cursor stops on the newline
    before the next line of the same or a lower indentation, or at the end
    of the input. *)
Fixpoint skip_block_from (level : N) (cs : list ascii) (p : Position)
  : Position :=
  match cs with
  | [] => p
  | c :: cs =>
    if Ascii.eqb c newline then
      if (level <? leading_spaces cs)%N
      then skip_block_from level cs (advance c p)
      else p
    else skip_block_from level cs (advance c p)
  end.

Definition skip_block (b : Buffer) : Buffer :=
  move (skip_block_from (indentation b) (remaining b) (TextBuffer.position b))
       b.

#[export] Instance ops : TextBuffer.Ops Position string := {|
  TextBuffer.line_number := line;
  TextBuffer.indentation := indentation;
  TextBuffer.indentation_delta := indentation_delta;
  TextBuffer.end_reached := end_reached;
  TextBuffer.peek := peek;
  TextBuffer.peek_char := peek_char;
  TextBuffer.read := read;
  TextBuffer.read_char := read_char;
  TextBuffer.read_string := read_string;
  TextBuffer.skip_space := skip_space;
  TextBuffer.skip_space_flag := skip_space_flag;
  TextBuffer.skip_whitespace := skip_whitespace;
  TextBuffer.skip_block := skip_block
|}.

(** Modelled from the spec: [term.hpp] is missing, and the term grammar is
    not part of the rule parser.  The stand-in used to run the parser reads
    one reference, a non-empty run of [a-z_]; anything else is a failed
    term, reported with one diagnostic. *)
Fixpoint reference_from (cs : list ascii) : list ascii :=
  match cs with
  | c :: cs =>
    if Rule.is_name_character c then c :: reference_from cs else []
  | [] => []
  end.

#[export] Instance term_parser : Term.Parser Position string string :=
  fun buffer errors _ =>
    match reference_from (remaining buffer) with
    | [] =>
      Return nullptr buffer (errors ++ [SyntaxError.make "expected a term" buffer])
    | reference =>
      Return (Some (string_of_list_ascii reference))
             (move (advance_over reference (TextBuffer.position buffer)) buffer)
             errors
    end.

(** Modelled from the spec: the [operator<<] of [Term] is missing with
    [term.hpp].  The stand-in term is a reference, written as its name. *)
#[export] Instance term_printer : Term.Printer string :=
  fun term => term.

(** A top-level call of [Rule::parse] on a text: the cursor at its start,
    an empty sink, [parent_count] left at its default [0]. *)
Definition parse_text (fuel : nat) (source : string)
  : result Position string (shared_ptr (Rule.t Position string)) :=
  Rule.parse fuel (start source) [] 0.

End StringBuffer.

(** ** Grammar texts *)
Module Examples.
Import StringBuffer.

Definition nl : string := String newline "".

Definition at_position (i : nat) (l c : N) : Position :=
  {| index := i; line := l; column := c |}.

Definition cursor (source : string) (i : nat) (l c : N) : Buffer :=
  {| TextBuffer.position := at_position i l c; TextBuffer.text := source |}.

Definition terminal_rule (name term : string) (scope : list string)
    (p : Position) : Rule.t Position string :=
  Rule.mk (Rule.term_value (Some term)) p scope name true.

Definition extension_rule (name : string) (scope : list string)
    (p : Position) (children : list (Rule.t Position string))
  : Rule.t Position string :=
  Rule.mk (Rule.children_value children) p scope name false.

(** A terminal declaration. *)
Definition terminal_text : string := "foo: a".

Definition terminal_tree : Rule.t Position string :=
  terminal_rule "foo" "a" [] (at_position 0 1 1).

(** A name-extension with two terminal children. *)
Definition siblings_text : string :=
  "foo..." ++ nl ++
  "    bar: a" ++ nl ++
  "    baz: b" ++ nl.

Definition siblings_tree : Rule.t Position string :=
  extension_rule "foo" [] (at_position 0 1 1)
    [terminal_rule "bar" "a" ["foo"] (at_position 11 2 5);
     terminal_rule "baz" "b" ["foo"] (at_position 22 3 5)].

(** A name-extension inside a name-extension. *)
Definition nested_text : string :=
  "foo..." ++ nl ++
  "    bar..." ++ nl ++
  "        qux: a".

Definition nested_tree : Rule.t Position string :=
  extension_rule "foo" [] (at_position 0 1 1)
    [extension_rule "bar" ["foo"] (at_position 11 2 5)
       [terminal_rule "qux" "a" ["bar"; "foo"] (at_position 26 3 9)]].

(** Characters after the dots, and a child that is fine. *)
Definition trailing_text : string :=
  "foo... x" ++ nl ++
  "    bar: a".

Definition no_trailing_text : string :=
  "foo..." ++ nl ++
  "    bar: a".

(** Characters after the dots, and nothing below. *)
Definition trailing_alone_text : string := "foo... x" ++ nl.

(** Characters after the dots, followed by a line that is not a child. *)
Definition trailing_dedent_text : string :=
  "foo... x" ++ nl ++
  "bar: a".

(** A name-extension followed by a line that is not a child. *)
Definition childless_text : string :=
  "foo..." ++ nl ++
  "bar: a".

(** A line indented by two columns. *)
Definition odd_indentation_text : string := "  foo: a".

(** A child indented by eight columns under a rule at depth 0. *)
Definition jump_text : string :=
  "foo..." ++ nl ++
  "        bar: a" ++ nl.

(** Two children whose terms fail, and a third that is fine. *)
Definition failing_children_text : string :=
  "foo..." ++ nl ++
  "    bar: 9" ++ nl ++
  "    baz: 8" ++ nl ++
  "    qux: a".

(** A line that does not start with a name. *)
Definition nameless_text : string := "Foo: a".

Definition diagnostic (message : string) (i : nat) (l c : N)
  : SyntaxError.t Position :=
  {| SyntaxError.message := message;
     SyntaxError.position := at_position i l c |}.

(** The rule [foo] of these texts when its child loop is entered: named,
    and otherwise as [new Rule()] left it. *)
Definition foo_at_loop : Rule.t Position string :=
  Rule.mk (Rule.term_value nullptr) (at_position 0 1 1) [] "foo" false.

Definition no_trailing_tree : Rule.t Position string :=
  extension_rule "foo" [] (at_position 0 1 1)
    [terminal_rule "bar" "a" ["foo"] (at_position 11 2 5)].

Definition trailing_diagnostic : SyntaxError.t Position :=
  diagnostic "trailing characters after '...'" 7 1 8.

(** A child whose term fails, and then a child line that does not start
    with a name. *)
Definition fault_below_text : string :=
  "foo..." ++ nl ++
  "    bar: 9" ++ nl ++
  "    Baz: a".

(** A name followed by neither a colon nor dots. *)
Definition missing_colon_text : string := "foo = a".

(** A terminal declaration whose term fails. *)
Definition failing_term_text : string := "foo: 9".

(** A child with something left on its line after its term. *)
Definition incomplete_text : string :=
  "foo..." ++ nl ++
  "    bar: a b".

Definition bar_parsed : Rule.t Position string :=
  terminal_rule "bar" "a" [] (at_position 11 2 5).

Definition bar_scoped : Rule.t Position string :=
  terminal_rule "bar" "a" ["foo"] (at_position 11 2 5).

End Examples.

(** * Properties of the rule parser *)
Module RuleFacts.
Import Rule.

Section Generic.
Context {Position Text Term : Type}.
Context `{!TextBuffer.Ops Position Text}.
Context `{!Term.Parser Position Text Term}.

Abbreviation Rule := (Rule.t Position Term).
Abbreviation Buffer := (TextBuffer.t Position Text).
Abbreviation Errors := (list (SyntaxError.t Position)).
Abbreviation Outcome := (result Position Text (shared_ptr Rule)).

(** ** Induction on rule trees *)
Section RuleInduction.
Variable P : Rule -> Prop.
Hypothesis terminal_case :
  forall term position scope name terminal,
    P (mk (term_value term) position scope name terminal).
Hypothesis children_case :
  forall children position scope name terminal,
    Forall P children ->
    P (mk (children_value children) position scope name terminal).

Fixpoint rule_tree_ind (rule : Rule) : P rule :=
  match rule with
  | mk (term_value term) position scope name terminal =>
    terminal_case term position scope name terminal
  | mk (children_value children) position scope name terminal =>
    children_case children position scope name terminal
      ((fix all (rules : list Rule) : Forall P rules :=
          match rules with
          | [] => Forall_nil P
          | rule :: rules =>
            Forall_cons rule (rule_tree_ind rule) (all rules)
          end) children)
  end.
End RuleInduction.

Lemma names_eqb_eq (names names' : list string) :
  names_eqb names names' = true <-> names = names'.
Proof.
  revert names'; induction names as [|n names IH]; intros [|n' names'];
    simpl; split; try congruence; try reflexivity.
  - intros E. apply andb_true_iff in E as [E1 E2].
    apply String.eqb_eq in E1. apply IH in E2. congruence.
  - intros E. injection E as -> ->.
    rewrite String.eqb_refl. simpl. now apply IH.
Qed.

Lemma names_eqb_refl (names : list string) : names_eqb names names = true.
Proof. now apply names_eqb_eq. Qed.

(** ** [add_parent_scope] on the trees the parser builds *)

(** A rule the parser has accepted: tag and payload agree, and the scopes
    below it are the chains of enclosing names up to [ancestors]. *)
Definition accepted (ancestors : list string) (rule : Rule) : Prop :=
  well_formed rule = true /\ scoped_innermost_first ancestors rule = true.

Lemma for_each_accepted (update : Rule -> option Rule)
    (Q Q' : Rule -> Prop) (rules : list Rule) :
  Forall (fun rule => Q rule ->
            exists rule', update rule = Some rule' /\ Q' rule') rules ->
  Forall Q rules ->
  exists rules', for_each update rules = Some rules' /\
                 Forall Q' rules' /\ List.length rules' = List.length rules.
Proof.
  induction 1 as [|rule rules Hrule _ IH]; intros HQ; simpl.
  - exists []. repeat split; constructor.
  - inversion HQ as [|? ? Hq Hqs]; subst.
    destruct (Hrule Hq) as (rule' & -> & Hq').
    destruct (IH Hqs) as (rules' & -> & Hqs' & Hlen).
    exists (rule' :: rules'). repeat split; [now constructor|].
    simpl. now rewrite Hlen.
Qed.

Lemma forallb_Forall {A} (f : A -> bool) (l : list A) :
  forallb f l = true <-> Forall (fun a => f a = true) l.
Proof.
  rewrite forallb_forall, Forall_forall. reflexivity.
Qed.

Lemma add_parent_scope_accepted (parent : string) (rule : Rule) :
  forall ancestors,
    accepted ancestors rule ->
    exists rule',
      add_parent_scope parent rule = Some rule' /\
      accepted (ancestors ++ [parent]) rule' /\
      name rule' = name rule.
Proof.
  induction rule as [term position scope name terminal
                    |children position scope name terminal IH]
    using rule_tree_ind; intros ancestors [Hwf Hsc]; simpl in *.
  - apply andb_true_iff in Hwf as [-> Hterm].
    apply andb_true_iff in Hsc as [Hsc _].
    apply names_eqb_eq in Hsc; subst scope. simpl.
    eexists; split; [reflexivity|]. split; [split|reflexivity]; simpl.
    + now rewrite Hterm.
    + now rewrite names_eqb_refl.
  - apply andb_true_iff in Hwf as [Hwf Hall].
    apply andb_true_iff in Hwf as [Hflag Hne].
    apply andb_true_iff in Hsc as [Hsc Hbelow].
    apply names_eqb_eq in Hsc; subst scope.
    rewrite Hflag.
    apply forallb_Forall in Hall. apply forallb_Forall in Hbelow.
    destruct (for_each_accepted (add_parent_scope parent)
                (accepted (name :: ancestors))
                (accepted ((name :: ancestors) ++ [parent]))
                children) as (children' & -> & Hacc & Hlen).
    + eapply Forall_impl; [|exact IH]. intros child Hchild Hq.
      destruct (Hchild _ Hq) as (child' & ? & ? & _). eauto.
    + rewrite Forall_forall in *. intros child Hin. split; auto.
    + eexists; split; [reflexivity|]. split; [split|reflexivity]; simpl.
      * rewrite Hflag. apply andb_true_iff; split.
        -- destruct children', children; simpl in *; congruence.
        -- apply forallb_Forall.
           eapply Forall_impl; [|exact Hacc]. now intros ? [? _].
      * rewrite names_eqb_refl. simpl. apply forallb_Forall.
        eapply Forall_impl; [|exact Hacc]. now intros ? [_ ?].
Qed.

(** ** What the child loop and the parser return *)

(** A rule returned for a name-extension: flagged non-terminal, holding
    at least one child. *)
Definition extension_shape (rule : Rule) : Prop :=
  terminal rule = false /\
  exists child children, value rule = children_value (child :: children).

Lemma finish_children_accepted (rule : Rule) (buffer buffer' : Buffer)
    (errors errors' : Errors) (errors_found : bool)
    (children : list Rule) (result : Rule) :
  terminal rule = false -> scope rule = [] ->
  Forall (accepted [name rule]) children ->
  finish_children rule buffer errors errors_found children
    = Return (Some result) buffer' errors' ->
  accepted [] result /\ extension_shape result /\
  errors_found = false /\ errors' = errors.
Proof.
  intros Hflag Hscope Hall. unfold finish_children.
  destruct errors_found; [discriminate|].
  destruct children as [|child children]; [discriminate|].
  intros E. injection E as <- _ <-.
  assert (Hwf : forallb well_formed (child :: children) = true).
  { apply forallb_Forall.
    eapply Forall_impl; [|exact Hall]. now intros ? [? _]. }
  assert (Hsc : forallb (scoped_innermost_first [name rule])
                  (child :: children) = true).
  { apply forallb_Forall.
    eapply Forall_impl; [|exact Hall]. now intros ? [_ ?]. }
  unfold accepted, extension_shape.
  cbn [well_formed scoped_innermost_first terminal value].
  rewrite Hflag, Hscope, Hwf, Hsc. simpl. eauto 10.
Qed.

Lemma parse_children_accepted
    (parse_child : Buffer -> Errors -> Outcome) :
  (forall buffer errors rule buffer' errors',
      parse_child buffer errors = Return (Some rule) buffer' errors' ->
      accepted [] rule) ->
  forall fuel rule buffer errors errors_found children
         result buffer' errors',
    terminal rule = false -> scope rule = [] ->
    Forall (accepted [name rule]) children ->
    parse_children parse_child fuel rule buffer errors errors_found children
      = Return (Some result) buffer' errors' ->
    accepted [] result /\ extension_shape result.
Proof.
  intros Hchild fuel. induction fuel as [|fuel IH];
    intros rule buffer errors errors_found children result buffer' errors'
           Hflag Hscope Hall E; simpl in E; [discriminate|].
  destruct (_ <=? 0)%Z.
  { eapply finish_children_accepted in E; eauto. tauto. }
  destruct (negb _); [discriminate|].
  destruct (parse_child _ _) as [[child|] buffer1 errors1| |] eqn:Echild;
    try discriminate.
  - destruct (_ && _); [discriminate|].
    apply Hchild in Echild.
    destruct (add_parent_scope_accepted (name rule) child [] Echild)
      as (child' & Eadd & Hacc & _).
    rewrite Eadd in E.
    eapply IH in E; eauto. apply Forall_app; split; auto.
  - eapply IH in E; eauto.
Qed.

Lemma parse_accepted (fuel : nat) :
  forall buffer errors parent_count rule buffer' errors',
    parse fuel buffer errors parent_count
      = Return (Some rule) buffer' errors' ->
    accepted [] rule.
Proof.
  induction fuel as [|fuel IH];
    intros buffer errors parent_count rule buffer' errors' E;
    simpl in E; [discriminate|].
  destruct (negb (_ =? 0)%N); [discriminate|].
  destruct (negb (_ =? _)%N); [discriminate|].
  destruct (scan_name _ _ _) as [[rule_name buffer1]|]; [|discriminate].
  destruct (String.eqb _ _); [discriminate|].
  destruct (TextBuffer.read_char _ _) as [[|] buffer2].
  - destruct (Term.parse _ _ _) as [[term|] buffer3 errors3| |];
      try discriminate.
    injection E as <- _ _. split; reflexivity.
  - destruct (TextBuffer.read_string _ _) as [[|] buffer3];
      [|discriminate].
    destruct (negb (TextBuffer.peek_char _ _));
      eapply parse_children_accepted in E; simpl; eauto; tauto.
Qed.

Lemma parse_enters_child_loop (fuel : nat) (buffer : Buffer)
    (errors : Errors) (parent_count : N) (rule : Rule) (buffer' : Buffer)
    (errors' : Errors) (errors_found : bool) :
  child_loop_entry fuel buffer errors parent_count
    = Some (rule, buffer', errors', errors_found) ->
  parse (S fuel) buffer errors parent_count
    = parse_children
        (fun buffer errors =>
           parse fuel buffer errors (uint (parent_count + 1)))
        fuel rule buffer' errors' errors_found []
  /\ terminal rule = false /\ scope rule = []
  /\ position rule = TextBuffer.position buffer.
Proof.
  unfold child_loop_entry.
  cbn [parse new_Rule name value position scope terminal].
  destruct (negb (_ =? 0)%N); [discriminate|].
  destruct (negb (_ =? _)%N); [discriminate|].
  destruct (scan_name _ _ _) as [[rule_name buffer1]|]; [|discriminate].
  destruct (String.eqb _ _); [discriminate|].
  destruct (TextBuffer.read_char _ _) as [[|] buffer2]; [discriminate|].
  destruct (TextBuffer.read_string _ _) as [[|] buffer3]; [|discriminate].
  destruct (negb (TextBuffer.peek_char _ _));
    intros E; injection E as <- <- <- <-; auto.
Qed.

Lemma well_formed_tag (rule : Rule) :
  well_formed rule = true ->
  (terminal rule = true <-> exists term, value rule = term_value (Some term))
  /\ (terminal rule = false <->
      exists child children, value rule = children_value (child :: children)).
Proof.
  destruct rule as [[[term|]|[|child children]] position scope name [|]];
    simpl; intros Hwf; try discriminate Hwf;
    (split; split; intros Hx; try discriminate Hx; eauto);
    try (destruct Hx as (? & ? & Hx); discriminate Hx);
    destruct Hx as (? & Hx); discriminate Hx.
Qed.

(** Once [errors_found] is set, the loop cannot end in a rule. *)
Lemma parse_children_after_error
    (parse_child : Buffer -> Errors -> Outcome) (fuel : nat) :
  forall rule buffer errors children result buffer' errors',
    parse_children parse_child fuel rule buffer errors true children
      = Return result buffer' errors' ->
    result = None.
Proof.
  induction fuel as [|fuel IH];
    intros rule buffer errors children result buffer' errors' E;
    simpl in E; [discriminate|].
  destruct (_ <=? 0)%Z; [now injection E as <- _ _|].
  destruct (negb _); [now injection E as <- _ _|].
  destruct (parse_child _ _) as [[child|] buffer1 errors1| |];
    try discriminate; [|eauto].
  destruct (_ && _); [discriminate|].
  destruct (add_parent_scope _ _); [eauto|discriminate].
Qed.

(** What a call added to the sink: nothing with a rule, something with
    the failure sentinel. *)
Definition reported {A : Type} (errors errors' : Errors)
    (result : option A) : Prop :=
  exists added,
    errors' = errors ++ added /\
    (result <> None -> added = []) /\
    (result = None -> added <> []).

Lemma parse_children_reported
    (parse_child : Buffer -> Errors -> Outcome) :
  (forall buffer errors result buffer' errors',
      parse_child buffer errors = Return result buffer' errors' ->
      reported errors errors' result) ->
  forall fuel rule buffer errors errors_found children
         result buffer' errors',
    parse_children parse_child fuel rule buffer errors errors_found children
      = Return result buffer' errors' ->
    exists added,
      errors' = errors ++ added /\
      (result <> None -> added = [] /\ errors_found = false) /\
      (result = None -> added <> [] \/ errors_found = true).
Proof.
  intros Hchild fuel. induction fuel as [|fuel IH];
    intros rule buffer errors errors_found children result buffer' errors'
           E; simpl in E; [discriminate|].
  destruct (_ <=? 0)%Z.
  { unfold finish_children in E.
    destruct errors_found.
    - injection E as <- _ <-. exists []. rewrite app_nil_r.
      repeat split; auto; congruence.
    - destruct children.
      + injection E as <- _ <-. eexists. split; [reflexivity|].
        split; [congruence|]. intros _. left. discriminate.
      + injection E as <- _ <-. exists []. rewrite app_nil_r.
        repeat split; auto; congruence. }
  destruct (negb _).
  { injection E as <- _ <-. eexists. split; [reflexivity|].
    split; [congruence|]. intros _. left. discriminate. }
  destruct (parse_child _ _) as [[child|] buffer1 errors1| |] eqn:Echild;
    try discriminate; apply Hchild in Echild as (added1 & -> & Hsome & Hnone).
  - destruct (_ && _); [discriminate|].
    destruct (add_parent_scope _ _); [|discriminate].
    rewrite (Hsome ltac:(discriminate)), app_nil_r in E. eauto.
  - apply IH in E as (added & -> & Hsome' & Hnone').
    exists (added1 ++ added). rewrite app_assoc. split; [reflexivity|].
    split.
    + intros Hresult. destruct (Hsome' Hresult) as [_ ?]. discriminate.
    + intros _. left. intros Eapp. apply app_eq_nil in Eapp as [? _].
      now apply Hnone.
Qed.

Lemma parse_reported (Hterm : Term.reports_failures) (fuel : nat) :
  forall buffer errors parent_count result buffer' errors',
    parse fuel buffer errors parent_count
      = Return result buffer' errors' ->
    reported errors errors' result.
Proof.
  induction fuel as [|fuel IH];
    intros buffer errors parent_count result buffer' errors' E;
    simpl in E; [discriminate|].
  assert (Hone : forall error : SyntaxError.t Position,
             reported errors (errors ++ [error]) (@None Rule)).
  { intros error. exists [error]. repeat split; congruence. }
  destruct (negb (_ =? 0)%N); [injection E as <- _ <-; apply Hone|].
  destruct (negb (_ =? _)%N); [injection E as <- _ <-; apply Hone|].
  destruct (scan_name _ _ _) as [[rule_name buffer1]|]; [|discriminate].
  destruct (String.eqb _ _); [discriminate|].
  destruct (TextBuffer.read_char _ _) as [[|] buffer2].
  - destruct (Term.parse _ _ _) as [[term|] buffer3 errors3| |] eqn:Eterm;
      try discriminate; injection E as <- _ <-;
      apply Hterm in Eterm as (added & -> & Hsome & Hnone);
      exists added; repeat split; try congruence.
    + intros _. apply Hsome. discriminate.
    + intros _. now apply Hnone.
  - destruct (TextBuffer.read_string _ _) as [[|] buffer3];
      [|injection E as <- _ <-; apply Hone].
    destruct (negb (TextBuffer.peek_char _ _));
      apply (parse_children_reported _ (fun b e => IH b e _)) in E
        as (added & -> & Hsome & Hnone).
    + eexists (_ :: added). rewrite <- app_assoc. split; [reflexivity|].
      split; [|discriminate].
      intros Hresult. destruct (Hsome Hresult) as [_ ?]. discriminate.
    + exists added. split; [reflexivity|]. split.
      * intros Hresult. now apply Hsome.
      * intros Hresult. destruct (Hnone Hresult); [assumption|discriminate].
Qed.

(** ** Fuel: a call that has finished is not changed by more fuel *)

Lemma scan_name_more_fuel (fuel : nat) :
  forall fuel' buffer name found,
    scan_name fuel buffer name = Some found ->
    fuel <= fuel' ->
    scan_name fuel' buffer name = Some found.
Proof.
  induction fuel as [|fuel IH]; intros fuel' buffer name found E Hle;
    simpl in E; [discriminate|].
  destruct fuel' as [|fuel']; [lia|]. simpl.
  destruct (is_name_character _); [|exact E].
  destruct (TextBuffer.read buffer) as [character buffer1].
  apply IH; [exact E|lia].
Qed.

Lemma parse_children_more_fuel
    (parse_child parse_child' : Buffer -> Errors -> Outcome) :
  (forall buffer errors,
      parse_child buffer errors <> Diverge ->
      parse_child' buffer errors = parse_child buffer errors) ->
  forall fuel fuel' rule buffer errors errors_found children,
    parse_children parse_child fuel rule buffer errors errors_found children
      <> Diverge ->
    fuel <= fuel' ->
    parse_children parse_child' fuel' rule buffer errors errors_found children
    = parse_children parse_child fuel rule buffer errors errors_found children.
Proof.
  intros Hchild fuel. induction fuel as [|fuel IH];
    intros fuel' rule buffer errors errors_found children Hdone Hle;
    simpl in Hdone; [contradiction|].
  destruct fuel' as [|fuel']; [lia|]. simpl.
  destruct (_ <=? 0)%Z; [reflexivity|].
  destruct (negb _); [reflexivity|].
  rewrite Hchild.
  - destruct (parse_child _ _) as [[child|] buffer1 errors1| |];
      try reflexivity.
    + destruct (_ && _); [reflexivity|].
      destruct (add_parent_scope _ _); [|reflexivity].
      apply IH; [exact Hdone|lia].
    + apply IH; [exact Hdone|lia].
  - intros Ediverge. rewrite Ediverge in Hdone. contradiction.
Qed.

Lemma parse_more_fuel (fuel : nat) :
  forall fuel' buffer errors parent_count,
    parse fuel buffer errors parent_count <> Diverge ->
    fuel <= fuel' ->
    parse fuel' buffer errors parent_count
    = parse fuel buffer errors parent_count.
Proof.
  induction fuel as [|fuel IH];
    intros fuel' buffer errors parent_count Hdone Hle;
    simpl in Hdone; [contradiction|].
  destruct fuel' as [|fuel']; [lia|]. simpl.
  destruct (negb (_ =? 0)%N); [reflexivity|].
  destruct (negb (_ =? _)%N); [reflexivity|].
  destruct (scan_name fuel _ _) as [[rule_name buffer1]|] eqn:Ename;
    [|contradiction].
  rewrite (scan_name_more_fuel fuel fuel' _ _ _ Ename) by lia.
  destruct (String.eqb _ _); [reflexivity|].
  destruct (TextBuffer.read_char _ _) as [[|] buffer2]; [reflexivity|].
  destruct (TextBuffer.read_string _ _) as [[|] buffer3]; [|reflexivity].
  destruct (negb (TextBuffer.peek_char _ _));
    (apply parse_children_more_fuel; [|exact Hdone|lia]);
    intros b e Hb; apply IH; (exact Hb || lia).
Qed.

(** ** The claims *)

(** C1, as amended (the claim has the outermost name first, the code puts
    it last): in every rule tree that [parse] returns, the scope of each
    rule lists the names of the name-extended rules that enclose it, from
    the innermost to the outermost, without the rule's own name; the
    scope of the returned root is empty. *)
Theorem parse_scopes_innermost_first (fuel : nat) (buffer : Buffer)
    (errors : Errors) (parent_count : N) (rule : Rule) (buffer' : Buffer)
    (errors' : Errors) :
  parse fuel buffer errors parent_count
    = Return (Some rule) buffer' errors' ->
  scoped_innermost_first [] rule = true.
Proof.
  intros E. apply parse_accepted in E. apply E.
Qed.

(** C2: a rule that [parse] returns has its tag and its payload in
    agreement, in the whole tree: [terminal] is true exactly when [value]
    holds a term, and false exactly when it holds a non-empty vector of
    children; a rule returned from the name-extension form has
    [terminal] false and holds a non-empty vector of children. *)
Theorem parse_tag_matches_payload (fuel : nat) (buffer : Buffer)
    (errors : Errors) (parent_count : N) (rule : Rule) (buffer' : Buffer)
    (errors' : Errors) :
  parse (S fuel) buffer errors parent_count
    = Return (Some rule) buffer' errors' ->
  well_formed rule = true
  /\ (terminal rule = true <->
      exists term, value rule = term_value (Some term))
  /\ (terminal rule = false <->
      exists child children,
        value rule = children_value (child :: children))
  /\ (forall entry : Rule * Buffer * Errors * bool,
        child_loop_entry fuel buffer errors parent_count = Some entry ->
        terminal rule = false /\
        exists child children,
          value rule = children_value (child :: children)).
Proof.
  intros E.
  assert (Hwf : well_formed rule = true).
  { apply parse_accepted in E. apply E. }
  destruct (well_formed_tag rule Hwf) as [Hterm Hchildren].
  split; [exact Hwf|]. split; [exact Hterm|]. split; [exact Hchildren|].
  intros [[[rule0 buffer0] errors0] errors_found] Hentry.
  apply parse_enters_child_loop in Hentry as (Eloop & Hflag & Hscope & _).
  rewrite Eloop in E.
  eapply parse_children_accepted in E; eauto using parse_accepted.
  destruct E as [_ Hshape]. exact Hshape.
Qed.

(** C3, as amended (the claim lets the rule succeed, the code sets
    [errors_found]): when the dots of a name-extension are not followed
    by the end of the line, [parse] appends the diagnostic
    "trailing characters after '...'" at the cursor and goes on into the
    child loop, but with [errors_found] set: whenever the call returns,
    it returns the failure sentinel, whatever the children do. *)
Theorem trailing_characters_fail_the_rule (fuel : nat) (buffer : Buffer)
    (errors : Errors) (parent_count : N) (rule : Rule)
    (after_dots : Buffer) (errors_at_loop : Errors) (errors_found : bool) :
  child_loop_entry fuel buffer errors parent_count
    = Some (rule, after_dots, errors_at_loop, errors_found) ->
  TextBuffer.peek_char "010" after_dots = false ->
  errors_at_loop
    = errors ++ [SyntaxError.make "trailing characters after '...'"
                   after_dots]
  /\ errors_found = true
  /\ parse (S fuel) buffer errors parent_count
     = parse_children
         (fun buffer errors =>
            parse fuel buffer errors (uint (parent_count + 1)))
         fuel rule after_dots errors_at_loop true []
  /\ (forall result buffer' errors',
        parse (S fuel) buffer errors parent_count
          = Return result buffer' errors' ->
        result = None).
Proof.
  intros Hentry Hpeek.
  assert (Hflag : errors_found = true /\
                  errors_at_loop
                    = errors ++ [SyntaxError.make
                                   "trailing characters after '...'"
                                   after_dots]).
  { revert Hentry. unfold child_loop_entry.
    destruct (negb (_ =? 0)%N); [discriminate|].
    destruct (negb (_ =? _)%N); [discriminate|].
    destruct (scan_name _ _ _) as [[rule_name buffer1]|]; [|discriminate].
    destruct (String.eqb _ _); [discriminate|].
    destruct (TextBuffer.read_char _ _) as [[|] buffer2]; [discriminate|].
    destruct (TextBuffer.read_string _ _) as [[|] buffer3];
      [|discriminate].
    destruct (negb (TextBuffer.peek_char _ _)) eqn:Enl;
      intros E; injection E as <- <- <- <-; [auto|].
    rewrite Hpeek in Enl. discriminate Enl. }
  destruct Hflag as [-> ->].
  apply parse_enters_child_loop in Hentry as (Eloop & _).
  repeat split; auto.
  intros result buffer' errors' E. rewrite Eloop in E.
  now apply parse_children_after_error in E.
Qed.

(** C4: provided the term parser reports its failures (it only appends
    to the sink, nothing along with a term and at least one diagnostic
    along with [nullptr]), every call of [parse] that returns has only
    appended to the sink: nothing when it returns a rule, so that a
    successful call on an empty sink leaves it empty, and at least one
    diagnostic when it returns the failure sentinel.  A call that throws
    is not a return. *)
Theorem parse_reports_failures (Hterm : Term.reports_failures)
    (fuel : nat) (buffer : Buffer) (errors : Errors) (parent_count : N)
    (result : shared_ptr Rule) (buffer' : Buffer) (errors' : Errors) :
  parse fuel buffer errors parent_count = Return result buffer' errors' ->
  (exists added,
      errors' = errors ++ added /\
      (result <> None -> added = []) /\
      (result = None -> added <> []))
  /\ (result <> None -> errors = [] -> errors' = []).
Proof.
  intros E. apply (parse_reported Hterm) in E.
  split; [exact E|].
  destruct E as (added & -> & Hsome & _).
  intros Hresult ->. now rewrite (Hsome Hresult).
Qed.

(** C5: on a line whose indentation is not a multiple of 4, [parse]
    returns the failure sentinel with exactly one more diagnostic,
    "invalid indentation level", and the cursor where it was: nothing
    of the line is consumed and no block is skipped. *)
Theorem invalid_indentation_fails (fuel : nat) (buffer : Buffer)
    (errors : Errors) (parent_count : N) :
  (TextBuffer.indentation buffer mod 4 <> 0)%N ->
  parse (S fuel) buffer errors parent_count
    = Return nullptr buffer
        (errors ++ [SyntaxError.make "invalid indentation level" buffer]).
Proof.
  intros Hodd. cbn [parse].
  destruct (N.eqb_spec (TextBuffer.indentation buffer mod 4) 0)
    as [Heven|_]; [contradiction|reflexivity].
Qed.

(** C6: in the child loop of a name-extension, at any iteration, when the
    indentation delta of the next line relative to the line of the rule
    is positive and not 4, the call skips the whitespace, appends the
    diagnostic "unexpected indentation increase" there, skips the block
    and returns the failure sentinel: the whole enclosing rule fails.
    This is so when the loop is first entered as well. *)
Theorem indentation_jump_fails_the_rule (fuel fuel' : nat)
    (parent_count : N) (rule : Rule) (buffer : Buffer) (errors : Errors)
    (errors_found : bool) (children : list Rule) :
  let delta :=
    TextBuffer.indentation_delta
      (TextBuffer.line_number (position rule)) buffer in
  let at_child := TextBuffer.skip_whitespace buffer in
  let failure : Outcome :=
    Return nullptr (TextBuffer.skip_block at_child)
      (errors ++ [SyntaxError.make "unexpected indentation increase"
                    at_child]) in
  (0 < delta)%Z -> delta <> 4%Z ->
  parse_children
    (fun buffer errors =>
       parse fuel buffer errors (uint (parent_count + 1)))
    (S fuel') rule buffer errors errors_found children = failure
  /\ (forall buffer0 errors0,
        child_loop_entry (S fuel) buffer0 errors0 parent_count
          = Some (rule, buffer, errors, errors_found) ->
        parse (S (S fuel)) buffer0 errors0 parent_count = failure).
Proof.
  intros delta at_child failure Hpositive Hjump.
  assert (Hloop : forall parse_child n collected,
             parse_children parse_child (S n) rule buffer errors
               errors_found collected = failure).
  { intros parse_child n collected. cbn [parse_children]. fold delta.
    destruct (Z.leb_spec delta 0) as [Hle|_]; [lia|].
    destruct (Z.eqb_spec delta 4) as [Heq|_]; [contradiction|].
    reflexivity. }
  split; [apply Hloop|].
  intros buffer0 errors0 Hentry.
  apply parse_enters_child_loop in Hentry as (-> & _). apply Hloop.
Qed.

(** C7, as amended (the diagnostic needs [errors_found] to be false,
    which excludes trailing characters after the dots as well as failed
    children): when the child loop of a name-extension ends with no child
    collected and [errors_found] false, the call resets the cursor to the
    start of the rule, appends the diagnostic
    "no children found for name-extended rule '<name>'" at that position,
    and returns the failure sentinel.  From [parse] this is the case
    where the dots end the line and the next line is not indented deeper
    than the rule. *)
Theorem childless_extension_fails (fuel : nat) (parent_count : N)
    (rule : Rule) (buffer : Buffer) (errors : Errors) :
  let failure : Outcome :=
    Return nullptr (TextBuffer.set_position (position rule) buffer)
      (errors ++
       [{| SyntaxError.message :=
             ("no children found for name-extended rule '"
              ++ name rule ++ "'")%string;
           SyntaxError.position := position rule |}]) in
  (TextBuffer.indentation_delta
     (TextBuffer.line_number (position rule)) buffer <= 0)%Z ->
  (forall parse_child fuel',
      parse_children parse_child (S fuel') rule buffer errors false []
        = failure)
  /\ (forall buffer0 errors0,
        child_loop_entry (S fuel) buffer0 errors0 parent_count
          = Some (rule, buffer, errors, false) ->
        parse (S (S fuel)) buffer0 errors0 parent_count = failure
        /\ position rule = TextBuffer.position buffer0
        /\ errors = errors0).
Proof.
  intros failure Hdelta.
  assert (Hloop : forall parse_child n,
             parse_children parse_child (S n) rule buffer errors false []
             = failure).
  { intros parse_child n. cbn [parse_children].
    destruct (Z.leb_spec
                (TextBuffer.indentation_delta
                   (TextBuffer.line_number (position rule)) buffer) 0)
      as [_|Hgt]; [reflexivity|lia]. }
  split; [exact Hloop|].
  intros buffer0 errors0 Hentry.
  assert (Hsink : errors = errors0).
  { revert Hentry. unfold child_loop_entry.
    repeat match goal with
           | |- context [match ?scrutinee with _ => _ end] =>
             destruct scrutinee
           end; try discriminate.
    now intros E; injection E as _ _ <-. }
  apply parse_enters_child_loop in Hentry as (-> & _ & _ & Hposition).
  auto.
Qed.

(** C8: when the parse of a child fails in the child loop, the call
    skips the block of that child, sets [errors_found] and goes on with
    the next line, keeping the sink as the child left it; from then on
    the loop cannot end in a rule, and when it ends on a line that is
    not a child, the call returns the failure sentinel with the sink
    unchanged.  With a term parser that reports its failures, the
    diagnostics of the failed child stay where they are and all later
    ones follow them. *)
Theorem failed_child_fails_the_rule (fuel fuel' : nat) (parent_count : N)
    (rule : Rule) (buffer : Buffer) (errors : Errors)
    (errors_found : bool) (children : list Rule)
    (after_child : Buffer) (errors_of_child : Errors) :
  let parse_child := fun buffer errors =>
    parse fuel buffer errors (uint (parent_count + 1)) in
  TextBuffer.indentation_delta
    (TextBuffer.line_number (position rule)) buffer = 4%Z ->
  parse_child (TextBuffer.skip_whitespace buffer) errors
    = Return nullptr after_child errors_of_child ->
  parse_children parse_child (S fuel') rule buffer errors errors_found
    children
    = parse_children parse_child fuel' rule
        (TextBuffer.skip_block after_child) errors_of_child true children
  /\ (forall result buffer' errors',
        parse_children parse_child (S fuel') rule buffer errors
          errors_found children = Return result buffer' errors' ->
        result = None)
  /\ (forall fuel'' buffer'' errors'' children'',
        (TextBuffer.indentation_delta
           (TextBuffer.line_number (position rule)) buffer'' <= 0)%Z ->
        parse_children parse_child (S fuel'') rule buffer'' errors'' true
          children'' = Return nullptr buffer'' errors'')
  /\ (Term.reports_failures ->
      forall result buffer' errors',
        parse_children parse_child (S fuel') rule buffer errors
          errors_found children = Return result buffer' errors' ->
        exists earlier later,
          errors_of_child = errors ++ earlier /\ earlier <> [] /\
          errors' = errors_of_child ++ later).
Proof.
  intros parse_child Hdelta Hchild.
  assert (Estep :
            parse_children parse_child (S fuel') rule buffer errors
              errors_found children
            = parse_children parse_child fuel' rule
                (TextBuffer.skip_block after_child) errors_of_child true
                children).
  { cbn [parse_children]. rewrite Hdelta, Hchild. reflexivity. }
  split; [exact Estep|]. split; [|split].
  - intros result buffer' errors' E. rewrite Estep in E.
    now apply parse_children_after_error in E.
  - intros fuel'' buffer'' errors'' children'' Hend.
    cbn [parse_children].
    destruct (Z.leb_spec
                (TextBuffer.indentation_delta
                   (TextBuffer.line_number (position rule)) buffer'') 0)
      as [_|Hgt]; [reflexivity|lia].
  - intros Hterm result buffer' errors' E. rewrite Estep in E.
    apply (parse_reported Hterm) in Hchild
      as (earlier & -> & _ & Hearlier).
    apply (parse_children_reported parse_child) in E
      as (later & -> & _).
    + exists earlier, later. auto.
    + intros b e r b' e' Er. now apply (parse_reported Hterm) in Er.
Qed.

(** C9: a terminal declaration at depth 0 (no indentation, a name, a
    colon, and a term that the term parser returns) makes [parse] return
    a rule with that name, [terminal] true, an empty scope, the position
    of the start of the line, and as its value the very term the term
    parser returned; the cursor and the sink are as the term parser left
    them. *)
Theorem terminal_rule_at_depth_0 (fuel : nat) (buffer : Buffer)
    (errors : Errors) (rule_name : string)
    (after_name after_colon after_term : Buffer) (term : Term)
    (errors' : Errors) :
  TextBuffer.indentation buffer = 0%N ->
  scan_name fuel buffer "" = Some (rule_name, after_name) ->
  rule_name <> "" ->
  TextBuffer.read_char ":" (TextBuffer.skip_space after_name)
    = (true, after_colon) ->
  Term.parse (TextBuffer.skip_space_flag true after_colon) errors true
    = Return (Some term) after_term errors' ->
  parse (S fuel) buffer errors 0
    = Return
        (Some {| value := term_value (Some term);
                 position := TextBuffer.position buffer;
                 scope := [];
                 name := rule_name;
                 terminal := true |})
        after_term errors'.
Proof.
  intros Hindentation Hname Hnonempty Hcolon Hterm.
  cbn [parse new_Rule name value position scope terminal].
  rewrite Hindentation, Hname. cbn [N.modulo N.eqb negb].
  destruct (String.eqb_spec rule_name "") as [Hempty|_];
    [contradiction|].
  rewrite Hcolon, Hterm. reflexivity.
Qed.

(** ** Calls inside calls *)

(** The child loop at the head of an iteration: the cursor, the sink,
    [errors_found] and the children collected so far. *)
Definition loop_state : Type := (Buffer * Errors * bool * list Rule)%type.

(** An iteration of the loop of lines 145-176 that goes round again: the
    line is a child (the delta is 4), and the child failed, lines 164-167,
    or it parsed, its line ended and it was collected, lines 171-175.
    [None] for an iteration that leaves the loop by [break], [return] or
    [throw], or where the child call has not finished. *)
Definition next_iteration
    (parse_child : Buffer -> Errors -> Outcome) (rule : Rule)
    (state : loop_state) : option loop_state :=
  let '(buffer, errors, errors_found, children) := state in
  if (TextBuffer.indentation_delta
        (TextBuffer.line_number (position rule)) buffer =? 4)%Z then
    match parse_child (TextBuffer.skip_whitespace buffer) errors with
    | Return None buffer errors =>
      Some (TextBuffer.skip_block buffer, errors, true, children)
    | Return (Some child) buffer errors =>
      if negb (TextBuffer.end_reached buffer)
         && negb (TextBuffer.peek_char "010" buffer) then None
      else
        match add_parent_scope (name rule) child with
        | None => None
        | Some child =>
          Some (buffer, errors, errors_found, children ++ [child])
        end
    | Throw _ _ _ => None
    | Diverge => None
    end
  else None.

(** The loop after this many iterations that went round again. *)
Fixpoint after_iterations
    (parse_child : Buffer -> Errors -> Outcome) (rule : Rule)
    (iterations : nat) (state : loop_state) : option loop_state :=
  match iterations with
  | O => Some state
  | S iterations =>
    match next_iteration parse_child rule state with
    | None => None
    | Some state => after_iterations parse_child rule iterations state
    end
  end.

(** [encloses outer inner]: the call [outer] of [parse] (its fuel, cursor,
    sink and [parent_count]) is the call [inner], or it enters its child
    loop and, after some iterations, calls [parse] at line 163 for a child
    whose call encloses [inner]. *)
Inductive encloses
  : nat * Buffer * Errors * N -> nat * Buffer * Errors * N -> Prop :=
| encloses_itself (call : nat * Buffer * Errors * N) : encloses call call
| encloses_through_child
    (fuel : nat) (buffer : Buffer) (errors : Errors) (parent_count : N)
    (rule : Rule) (at_loop : Buffer) (errors_at_loop : Errors)
    (errors_found : bool) (iterations : nat) (before_child : Buffer)
    (errors_before_child : Errors) (errors_found' : bool)
    (children : list Rule) (inner : nat * Buffer * Errors * N) :
    child_loop_entry fuel buffer errors parent_count
      = Some (rule, at_loop, errors_at_loop, errors_found) ->
    after_iterations
      (fun buffer errors => parse fuel buffer errors (uint (parent_count + 1)))
      rule iterations (at_loop, errors_at_loop, errors_found, [])
      = Some (before_child, errors_before_child, errors_found', children) ->
    iterations < fuel ->
    TextBuffer.indentation_delta
      (TextBuffer.line_number (position rule)) before_child = 4%Z ->
    encloses (fuel, TextBuffer.skip_whitespace before_child,
              errors_before_child, uint (parent_count + 1)) inner ->
    encloses (S fuel, buffer, errors, parent_count) inner.

Lemma next_iteration_goes_round
    (parse_child : Buffer -> Errors -> Outcome) (rule : Rule) (fuel : nat)
    (buffer : Buffer) (errors : Errors) (errors_found : bool)
    (children : list Rule) (buffer' : Buffer) (errors' : Errors)
    (errors_found' : bool) (children' : list Rule) :
  next_iteration parse_child rule (buffer, errors, errors_found, children)
    = Some (buffer', errors', errors_found', children') ->
  parse_children parse_child (S fuel) rule buffer errors errors_found children
  = parse_children parse_child fuel rule buffer' errors' errors_found'
      children'.
Proof.
  unfold next_iteration. cbn [parse_children].
  destruct (Z.eqb_spec
              (TextBuffer.indentation_delta
                 (TextBuffer.line_number (position rule)) buffer) 4)
    as [->|_]; [|discriminate].
  cbn [Z.leb Z.compare Pos.compare Z.eqb Pos.eqb negb].
  destruct (parse_child _ _) as [[child|] buffer1 errors1| |];
    try discriminate.
  - destruct (_ && _); [discriminate|].
    destruct (add_parent_scope _ _); [|discriminate].
    now intros E; injection E as <- <- <- <-.
  - now intros E; injection E as <- <- <- <-.
Qed.

Lemma after_iterations_goes_round
    (parse_child : Buffer -> Errors -> Outcome) (rule : Rule)
    (iterations : nat) :
  forall fuel buffer errors errors_found children
         buffer' errors' errors_found' children',
    after_iterations parse_child rule iterations
      (buffer, errors, errors_found, children)
      = Some (buffer', errors', errors_found', children') ->
    parse_children parse_child (iterations + fuel) rule buffer errors
      errors_found children
    = parse_children parse_child fuel rule buffer' errors' errors_found'
        children'.
Proof.
  induction iterations as [|iterations IH];
    intros fuel buffer errors errors_found children
           buffer' errors' errors_found' children' E;
    cbn [after_iterations] in E.
  - now injection E as <- <- <- <-.
  - destruct (next_iteration parse_child rule
                (buffer, errors, errors_found, children))
      as [[[[buffer1 errors1] found1] children1]|] eqn:Enext; [|discriminate].
    cbn [Nat.add].
    rewrite (next_iteration_goes_round _ _ _ _ _ _ _ _ _ _ _ Enext).
    now apply IH.
Qed.

(** An exception thrown by the call for a child leaves the child loop as it
    is: same exception, same cursor, same sink. *)
Lemma child_throw_leaves_loop
    (parse_child : Buffer -> Errors -> Outcome) (fuel : nat) (rule : Rule)
    (buffer : Buffer) (errors : Errors) (errors_found : bool)
    (children : list Rule) (e : exception Position) (buffer' : Buffer)
    (errors' : Errors) :
  TextBuffer.indentation_delta
    (TextBuffer.line_number (position rule)) buffer = 4%Z ->
  parse_child (TextBuffer.skip_whitespace buffer) errors
    = Throw e buffer' errors' ->
  parse_children parse_child (S fuel) rule buffer errors errors_found children
  = Throw e buffer' errors'.
Proof.
  intros Hdelta Hthrow. cbn [parse_children].
  now rewrite Hdelta, Hthrow.
Qed.

(** An exception thrown by a call leaves every call that encloses it, as it
    is: same exception, same cursor, same sink. *)
Lemma throw_leaves_enclosing_calls
    (outer inner : nat * Buffer * Errors * N) :
  encloses outer inner ->
  forall e buffer' errors',
    (let '(fuel, buffer, errors, parent_count) := inner in
     parse fuel buffer errors parent_count) = Throw e buffer' errors' ->
    (let '(fuel, buffer, errors, parent_count) := outer in
     parse fuel buffer errors parent_count) = Throw e buffer' errors'.
Proof.
  induction 1 as [call
                 |fuel buffer errors parent_count rule at_loop errors_at_loop
                    errors_found iterations before_child errors_before_child
                    errors_found' children inner Hentry Hiterations Hfuel
                    Hdelta _ IH];
    intros e buffer' errors' Hthrow; [exact Hthrow|].
  apply IH in Hthrow.
  apply parse_enters_child_loop in Hentry as (Eloop & _).
  rewrite Eloop. clear Eloop.
  set (parse_child := fun buffer errors =>
         parse fuel buffer errors (uint (parent_count + 1))) in *.
  assert (Hsplit : fuel = iterations + S (fuel - iterations - 1)) by lia.
  rewrite Hsplit.
  rewrite (after_iterations_goes_round _ _ _ _ _ _ _ _ _ _ _ _ Hiterations).
  now apply child_throw_leaves_loop.
Qed.

(** C10: when the indentation checks pass and the character at the
    cursor is not in [a-z_], so that the name stays empty, [parse]
    throws [ParseLogicError("no rule found")]: it does not return, the
    sink is as it was, and so is the cursor.  The fault aborts the whole
    operation: a child loop whose child call this is throws the same
    exception, and so does every call of [parse] that encloses this one, at
    any depth and after any number of earlier children; none of them
    returns the failure sentinel, skips a block or appends to the sink,
    which is left as it was when the faulting call began. *)
Theorem nameless_line_throws (fuel : nat) (buffer : Buffer)
    (errors : Errors) (parent_count : N) :
  (TextBuffer.indentation buffer mod 4 = 0)%N ->
  TextBuffer.indentation buffer = uint (parent_count * 4) ->
  is_name_character (TextBuffer.peek buffer) = false ->
  scan_name (S fuel) buffer "" = Some ("", buffer)
  /\ parse (S (S fuel)) buffer errors parent_count
     = Throw (ParseLogicError "no rule found"
                (TextBuffer.position buffer)) buffer errors
  /\ (forall fuel' rule before errors_found children,
        TextBuffer.indentation_delta
          (TextBuffer.line_number (position rule)) before = 4%Z ->
        TextBuffer.skip_whitespace before = buffer ->
        parse_children
          (fun buffer errors => parse (S (S fuel)) buffer errors parent_count)
          (S fuel') rule before errors errors_found children
        = Throw (ParseLogicError "no rule found"
                   (TextBuffer.position buffer)) buffer errors)
  /\ (forall fuel0 buffer0 errors0 parent_count0,
        encloses (fuel0, buffer0, errors0, parent_count0)
                 (S (S fuel), buffer, errors, parent_count) ->
        parse fuel0 buffer0 errors0 parent_count0
        = Throw (ParseLogicError "no rule found"
                   (TextBuffer.position buffer)) buffer errors).
Proof.
  intros Hmultiple Hdepth Hpeek.
  assert (Hname : scan_name (S fuel) buffer "" = Some ("", buffer)).
  { cbn [scan_name]. now rewrite Hpeek. }
  assert (Hfault : parse (S (S fuel)) buffer errors parent_count
                   = Throw (ParseLogicError "no rule found"
                              (TextBuffer.position buffer)) buffer errors).
  { cbn [parse new_Rule name value position scope terminal].
    rewrite Hname, Hmultiple, <- Hdepth, !N.eqb_refl. reflexivity. }
  split; [exact Hname|]. split; [exact Hfault|]. split.
  - intros fuel' rule before errors_found children Hdelta Hbefore.
    apply child_throw_leaves_loop; [exact Hdelta|].
    rewrite Hbefore. exact Hfault.
  - intros fuel0 buffer0 errors0 parent_count0 Henclosed.
    exact (throw_leaves_enclosing_calls _ _ Henclosed _ _ _ Hfault).
Qed.

End Generic.

(** ** The parser on texts *)
Section OnText.
Import StringBuffer Examples.

Lemma term_parser_reports_failures :
  @Term.reports_failures Position string string term_parser.
Proof.
  intros buffer errors flag term buffer' errors'.
  unfold Term.parse, term_parser.
  destruct (reference_from (remaining buffer)) as [|c reference];
    intros E; injection E as <- _ <-.
  - eexists. split; [reflexivity|]. split; congruence.
  - exists []. rewrite app_nil_r. split; [reflexivity|].
    split; congruence.
Qed.

(** C1, as stated, fails: in [foo...] holding [bar...] holding [qux: a]
    the scope of [qux] is ["bar"; "foo"], the innermost name first, and
    not ["foo"; "bar"]. *)
Lemma scope_outermost_first_counterexample :
  parse_text 50 nested_text
    = Return (Some nested_tree) (cursor nested_text 32 3 15) []
  /\ map (fun rule => (name rule, scope rule)) (rules_of nested_tree)
     = [("foo", []); ("bar", ["foo"]); ("qux", ["bar"; "foo"])]
  /\ ["bar"; "foo"] <> ["foo"; "bar"]
  /\ scoped_outermost_first [] nested_tree = false.
Proof.
  repeat split; try (vm_compute; reflexivity). discriminate.
Qed.

Lemma parse_scopes_innermost_first_witness :
  parse_text 50 nested_text
    = Return (Some nested_tree) (cursor nested_text 32 3 15) []
  /\ scoped_innermost_first [] nested_tree = true.
Proof.
  assert (E : parse_text 50 nested_text
              = Return (Some nested_tree) (cursor nested_text 32 3 15) [])
    by (vm_compute; reflexivity).
  split; [exact E|].
  exact (parse_scopes_innermost_first 50 _ _ _ _ _ _ E).
Defined.

Lemma parse_tag_matches_payload_witness :
  parse_text 50 siblings_text
    = Return (Some siblings_tree) (cursor siblings_text 28 3 11) []
  /\ well_formed siblings_tree = true
  /\ terminal siblings_tree = false.
Proof.
  assert (E : parse_text 50 siblings_text
              = Return (Some siblings_tree)
                  (cursor siblings_text 28 3 11) [])
    by (vm_compute; reflexivity).
  assert (Eentry : child_loop_entry 49 (start siblings_text) [] 0
                   = Some (foo_at_loop, cursor siblings_text 6 1 7,
                           [], false))
    by (vm_compute; reflexivity).
  destruct (parse_tag_matches_payload 49 _ _ _ _ _ _ E)
    as (Hwf & _ & _ & Hextension).
  destruct (Hextension _ Eentry) as [Hflag _].
  repeat split; assumption.
Defined.

(** C3, as stated, fails: with [x] after the dots of [foo] the call
    returns the failure sentinel, although the child [bar: a] is a good
    rule and the same text without the [x] yields the rule; with nothing
    below [foo] no child is parsed at all, none fails, and the only
    diagnostic is the one for the trailing characters. *)
Lemma trailing_characters_counterexample :
  parse_text 50 trailing_text
    = Return nullptr (cursor trailing_text 19 2 11)
        [trailing_diagnostic;
         diagnostic "unexpected indentation increase" 7 1 8]
  /\ parse_text 50 no_trailing_text
     = Return (Some no_trailing_tree) (cursor no_trailing_text 17 2 11) []
  /\ parse_text 50 trailing_alone_text
     = Return nullptr (cursor trailing_alone_text 7 1 8)
         [trailing_diagnostic].
Proof.
  repeat split; vm_compute; reflexivity.
Qed.

Lemma trailing_characters_fail_the_rule_witness :
  child_loop_entry 49 (start trailing_text) [] 0
    = Some (foo_at_loop, cursor trailing_text 7 1 8,
            [trailing_diagnostic], true)
  /\ peek_char newline (cursor trailing_text 7 1 8) = false
  /\ (forall result buffer' errors',
        parse_text 50 trailing_text = Return result buffer' errors' ->
        result = None).
Proof.
  assert (Eentry : child_loop_entry 49 (start trailing_text) [] 0
                   = Some (foo_at_loop, cursor trailing_text 7 1 8,
                           [trailing_diagnostic], true))
    by (vm_compute; reflexivity).
  assert (Epeek : TextBuffer.peek_char "010" (cursor trailing_text 7 1 8)
                  = false)
    by (vm_compute; reflexivity).
  split; [exact Eentry|]. split; [exact Epeek|].
  exact (proj2 (proj2 (proj2
           (trailing_characters_fail_the_rule 49 _ _ _ _ _ _ _
              Eentry Epeek)))).
Defined.

Lemma parse_reports_failures_witness :
  parse_text 50 failing_children_text
    = Return nullptr (cursor failing_children_text 39 4 11)
        [diagnostic "expected a term" 16 2 10;
         diagnostic "expected a term" 27 3 10]
  /\ exists added,
       [diagnostic "expected a term" 16 2 10;
        diagnostic "expected a term" 27 3 10] = [] ++ added
       /\ added <> [].
Proof.
  assert (E : parse_text 50 failing_children_text
              = Return nullptr (cursor failing_children_text 39 4 11)
                  [diagnostic "expected a term" 16 2 10;
                   diagnostic "expected a term" 27 3 10])
    by (vm_compute; reflexivity).
  split; [exact E|].
  destruct (parse_reports_failures term_parser_reports_failures
              50 _ _ _ _ _ _ E) as [(added & Eadded & _ & Hnone) _].
  exists added. split; [exact Eadded|]. apply Hnone. reflexivity.
Defined.

Lemma invalid_indentation_fails_witness :
  (indentation (start odd_indentation_text) mod 4 <> 0)%N
  /\ parse_text 1 odd_indentation_text
     = Return nullptr (start odd_indentation_text)
         [diagnostic "invalid indentation level" 0 1 1].
Proof.
  assert (Hodd : (TextBuffer.indentation (start odd_indentation_text)
                  mod 4 <> 0)%N)
    by (vm_compute; discriminate).
  split; [exact Hodd|].
  exact (invalid_indentation_fails 0 (start odd_indentation_text) [] 0
           Hodd).
Defined.

Lemma indentation_jump_fails_the_rule_witness :
  indentation_delta 1 (cursor jump_text 6 1 7) = 8%Z
  /\ parse_text 50 jump_text
     = Return nullptr (cursor jump_text 21 2 15)
         [diagnostic "unexpected indentation increase" 15 2 9]
  /\ parse_text 50 "bar: a"
     = Return (Some (terminal_rule "bar" "a" [] (at_position 0 1 1)))
         (cursor "bar: a" 6 1 7) [].
Proof.
  assert (Eentry : child_loop_entry 49 (start jump_text) [] 0
                   = Some (foo_at_loop, cursor jump_text 6 1 7, [], false))
    by (vm_compute; reflexivity).
  assert (Hpositive :
            (0 < TextBuffer.indentation_delta
                   (TextBuffer.line_number (position foo_at_loop))
                   (cursor jump_text 6 1 7))%Z)
    by (vm_compute; reflexivity).
  assert (Hjump :
            TextBuffer.indentation_delta
              (TextBuffer.line_number (position foo_at_loop))
              (cursor jump_text 6 1 7) <> 4%Z)
    by (vm_compute; discriminate).
  split; [vm_compute; reflexivity|].
  split; [|vm_compute; reflexivity].
  exact (proj2 (indentation_jump_fails_the_rule 48 0 0 foo_at_loop
                  (cursor jump_text 6 1 7) [] false [] Hpositive Hjump)
           _ _ Eentry).
Defined.

(** C7, as stated, fails: [foo... x] followed by a line that is not
    indented deeper collects no child and parses none, so none fails, and
    yet no "no children found" diagnostic is appended: the only
    diagnostic is the one for the trailing characters. *)
Lemma childless_after_trailing_counterexample :
  child_loop_entry 49 (start trailing_dedent_text) [] 0
    = Some (foo_at_loop, cursor trailing_dedent_text 7 1 8,
            [trailing_diagnostic], true)
  /\ indentation_delta 1 (cursor trailing_dedent_text 7 1 8) = 0%Z
  /\ parse_text 50 trailing_dedent_text
     = Return nullptr (cursor trailing_dedent_text 7 1 8)
         [trailing_diagnostic].
Proof.
  repeat split; vm_compute; reflexivity.
Qed.

Lemma childless_extension_fails_witness :
  (indentation_delta 1 (cursor childless_text 6 1 7) <= 0)%Z
  /\ parse_text 50 childless_text
     = Return nullptr (start childless_text)
         [diagnostic "no children found for name-extended rule 'foo'"
            0 1 1].
Proof.
  assert (Eentry : child_loop_entry 49 (start childless_text) [] 0
                   = Some (foo_at_loop, cursor childless_text 6 1 7,
                           [], false))
    by (vm_compute; reflexivity).
  assert (Hend :
            (TextBuffer.indentation_delta
               (TextBuffer.line_number (position foo_at_loop))
               (cursor childless_text 6 1 7) <= 0)%Z)
    by (vm_compute; discriminate).
  split; [exact Hend|].
  exact (proj1 (proj2 (childless_extension_fails 48 0 foo_at_loop
                         (cursor childless_text 6 1 7) [] Hend)
                  _ _ Eentry)).
Defined.

Lemma failed_child_fails_the_rule_witness :
  parse 48 (skip_whitespace (cursor failing_children_text 6 1 7)) [] 1
    = Return nullptr (cursor failing_children_text 17 2 11)
        [diagnostic "expected a term" 16 2 10]
  /\ (forall result buffer' errors',
        parse_children
          (fun buffer errors => parse 48 buffer errors (uint (0 + 1)))
          49 foo_at_loop (cursor failing_children_text 6 1 7) [] false []
          = Return result buffer' errors' ->
        result = None).
Proof.
  assert (Hdelta :
            TextBuffer.indentation_delta
              (TextBuffer.line_number (position foo_at_loop))
              (cursor failing_children_text 6 1 7) = 4%Z)
    by (vm_compute; reflexivity).
  assert (Echild :
            parse 48
              (TextBuffer.skip_whitespace
                 (cursor failing_children_text 6 1 7)) []
              (uint (0 + 1))
            = Return nullptr (cursor failing_children_text 17 2 11)
                [diagnostic "expected a term" 16 2 10])
    by (vm_compute; reflexivity).
  split; [exact Echild|].
  exact (proj1 (proj2
           (failed_child_fails_the_rule 48 48 0 foo_at_loop
              (cursor failing_children_text 6 1 7) [] false []
              _ _ Hdelta Echild))).
Defined.

Lemma terminal_rule_at_depth_0_witness :
  parse_text 50 terminal_text
    = Return (Some terminal_tree) (cursor terminal_text 6 1 7) [].
Proof.
  apply (terminal_rule_at_depth_0 49 (start terminal_text) [] "foo"
           (cursor terminal_text 3 1 4) (cursor terminal_text 4 1 5)
           (cursor terminal_text 6 1 7) "a" []);
    try (vm_compute; reflexivity).
  discriminate.
Defined.

Lemma nameless_line_throws_witness :
  is_name_character (peek (start nameless_text)) = false
  /\ parse_text 50 nameless_text
     = Throw (ParseLogicError "no rule found" (at_position 0 1 1))
         (start nameless_text) []
  /\ is_name_character (peek (cursor fault_below_text 22 3 5)) = false
  /\ parse 49 (cursor fault_below_text 22 3 5)
       [diagnostic "expected a term" 16 2 10] 1
     = Throw (ParseLogicError "no rule found" (at_position 22 3 5))
         (cursor fault_below_text 22 3 5)
         [diagnostic "expected a term" 16 2 10]
  /\ parse_text 50 fault_below_text
     = Throw (ParseLogicError "no rule found" (at_position 22 3 5))
         (cursor fault_below_text 22 3 5)
         [diagnostic "expected a term" 16 2 10].
Proof.
  assert (Hpeek : is_name_character
                    (TextBuffer.peek (start nameless_text)) = false)
    by (vm_compute; reflexivity).
  assert (Hmultiple :
            (TextBuffer.indentation (start nameless_text) mod 4 = 0)%N)
    by (vm_compute; reflexivity).
  assert (Hdepth : TextBuffer.indentation (start nameless_text)
                   = uint (0 * 4))
    by (vm_compute; reflexivity).
  assert (Hpeek' : is_name_character
                     (TextBuffer.peek (cursor fault_below_text 22 3 5))
                   = false)
    by (vm_compute; reflexivity).
  assert (Hmultiple' :
            (TextBuffer.indentation (cursor fault_below_text 22 3 5) mod 4
             = 0)%N)
    by (vm_compute; reflexivity).
  assert (Hdepth' : TextBuffer.indentation (cursor fault_below_text 22 3 5)
                    = uint (1 * 4))
    by (vm_compute; reflexivity).
  assert (Henclosed :
            encloses (50, start fault_below_text, [], 0%N)
                     (49, cursor fault_below_text 22 3 5,
                      [diagnostic "expected a term" 16 2 10], 1%N)).
  { apply (encloses_through_child 49 (start fault_below_text) [] 0
             foo_at_loop (cursor fault_below_text 6 1 7) [] false 1
             (cursor fault_below_text 17 2 11)
             [diagnostic "expected a term" 16 2 10] true []);
      [vm_compute; reflexivity|vm_compute; reflexivity|lia
      |vm_compute; reflexivity|].
    apply encloses_itself. }
  split; [exact Hpeek|].
  split; [exact (proj1 (proj2 (nameless_line_throws 48 (start nameless_text)
                                 [] 0 Hmultiple Hdepth Hpeek)))|].
  split; [exact Hpeek'|].
  destruct (nameless_line_throws 47 (cursor fault_below_text 22 3 5)
              [diagnostic "expected a term" 16 2 10] 1
              Hmultiple' Hdepth' Hpeek')
    as (_ & Hfault & _ & Hwhole).
  split; [exact Hfault|].
  exact (Hwhole 50 (start fault_below_text) [] 0%N Henclosed).
Defined.

End OnText.
End RuleFacts.

(** * More on the rules: scopes, names, exceptions and the printer *)
Module RuleMore.
Import Rule RuleFacts.

Section Generic.
Context {Position Text Term : Type}.
Context `{!TextBuffer.Ops Position Text}.
Context `{!Term.Parser Position Text Term}.
Context `{!Term.Printer Term}.

Abbreviation Rule := (Rule.t Position Term).
Abbreviation Buffer := (TextBuffer.t Position Text).
Abbreviation Errors := (list (SyntaxError.t Position)).
Abbreviation Outcome := (result Position Text (shared_ptr Rule)).

(** ** [for_each] as a relation between the vector before and after *)

Lemma for_each_Forall2 {A : Type} (update : A -> option A)
    (elements elements' : list A) :
  for_each update elements = Some elements' <->
  Forall2 (fun element element' => update element = Some element')
          elements elements'.
Proof.
  revert elements'. induction elements as [|element elements IH];
    intros elements'; simpl.
  - split.
    + intros E. injection E as <-. constructor.
    + intros Hall. inversion Hall. reflexivity.
  - destruct (update element) as [element1|] eqn:Eupdate.
    + destruct (for_each update elements) as [elements1|].
      * split.
        -- intros E. injection E as <-. constructor; [exact Eupdate|].
           now apply IH.
        -- intros Hall. inversion Hall as [|? ? ? ? E1 Hrest]; subst.
           apply IH in Hrest. congruence.
      * split; [discriminate|].
        intros Hall. inversion Hall as [|? ? ? ? E1 Hrest]; subst.
        apply IH in Hrest. discriminate.
    + split; [discriminate|].
      intros Hall. inversion Hall as [|? ? ? ? E1 Hrest]; subst. congruence.
Qed.

Lemma for_each_None {A : Type} (update : A -> option A) (elements : list A) :
  for_each update elements = None <->
  Exists (fun element => update element = None) elements.
Proof.
  induction elements as [|element elements IH]; simpl.
  - split; [discriminate|]. intros Hex. inversion Hex.
  - destruct (update element) as [element1|] eqn:Eupdate.
    + destruct (for_each update elements) as [elements1|].
      * split; [discriminate|].
        intros Hex. inversion Hex as [? ? E|? ? Hrest]; subst;
          [congruence|]. apply IH in Hrest. discriminate.
      * split; [|reflexivity]. intros _. right. now apply IH.
    + split; [|reflexivity]. intros _. now left.
Qed.

Lemma rules_of_children (children : list Rule) (position : Position)
    (scope : list string) (name : string) (terminal : bool) :
  rules_of (mk (children_value children) position scope name terminal)
  = mk (children_value children) position scope name terminal
    :: flat_map rules_of children.
Proof. reflexivity. Qed.

Lemma map_flat_map {A B C : Type} (f : B -> C) (g : A -> list B)
    (l : list A) :
  map f (flat_map g l) = flat_map (fun a => map f (g a)) l.
Proof.
  induction l as [|a l IH]; simpl; [reflexivity|].
  now rewrite map_app, IH.
Qed.

(** ** [add_parent_scope] *)

Lemma add_parent_scope_erase (parent : string) (rule : Rule) :
  forall rule',
    add_parent_scope parent rule = Some rule' ->
    erase_scopes rule' = erase_scopes rule.
Proof.
  induction rule as [term position scope name terminal
                    |children position scope name terminal IH]
    using rule_tree_ind; intros rule' E; simpl in E.
  - destruct (negb terminal); [discriminate|]. now injection E as <-.
  - destruct (negb terminal); [|now injection E as <-].
    destruct (for_each _ children) as [children'|] eqn:Eeach; [|discriminate].
    injection E as <-. simpl. f_equal. f_equal.
    apply for_each_Forall2 in Eeach.
    induction Eeach as [|child child' rest rest' Echild _ IHrest]; simpl;
      [reflexivity|].
    inversion IH as [|? ? Hchild Hrest]; subst.
    now rewrite (Hchild _ Echild), (IHrest Hrest).
Qed.

Lemma well_formed_erase (rule : Rule) :
  well_formed (erase_scopes rule) = well_formed rule.
Proof.
  induction rule as [term position scope name terminal
                    |children position scope name terminal IH]
    using rule_tree_ind; simpl; [reflexivity|].
  f_equal; [f_equal; now destruct children|].
  induction IH as [|child rest Hchild _ IHrest]; simpl; [reflexivity|].
  now rewrite Hchild, IHrest.
Qed.

Lemma add_parent_scope_well_formed (parent : string) (rule rule' : Rule) :
  add_parent_scope parent rule = Some rule' ->
  well_formed rule' = well_formed rule.
Proof.
  intros E. apply add_parent_scope_erase in E.
  now rewrite <- (well_formed_erase rule'), E, well_formed_erase.
Qed.

Lemma add_parent_scope_scopes (parent : string) (rule : Rule) :
  well_formed rule = true ->
  exists rule',
    add_parent_scope parent rule = Some rule' /\
    map scope (rules_of rule')
    = map (fun rule => scope rule ++ [parent]) (rules_of rule).
Proof.
  induction rule as [term position scope name terminal
                    |children position scope name terminal IH]
    using rule_tree_ind; intros Hwf; simpl in Hwf.
  - apply andb_true_iff in Hwf as [-> _]. simpl. eauto.
  - apply andb_true_iff in Hwf as [Hwf Hall].
    apply andb_true_iff in Hwf as [Hflag _].
    apply forallb_Forall in Hall.
    assert (Heach : exists children',
               Forall2 (fun child child' =>
                          add_parent_scope parent child = Some child')
                       children children' /\
               flat_map (fun child => map Rule.scope (rules_of child))
                        children'
               = flat_map (fun child =>
                             map (fun rule => Rule.scope rule ++ [parent])
                                 (rules_of child)) children).
    { clear Hflag.
      induction IH as [|child rest Hchild _ IHrest].
      - exists []. split; [constructor|reflexivity].
      - inversion Hall as [|? ? Hwf Hrest]; subst.
        destruct (Hchild Hwf) as (child' & Echild & Escopes).
        destruct (IHrest Hrest) as (rest' & Hall' & Eflat).
        exists (child' :: rest'). split; [now constructor|].
        simpl. now rewrite Escopes, Eflat. }
    destruct Heach as (children' & Hall' & Eflat).
    apply for_each_Forall2 in Hall'.
    simpl. rewrite Hflag, Hall'. eexists. split; [reflexivity|].
    rewrite !rules_of_children. simpl. f_equal.
    now rewrite !map_flat_map.
Qed.

(** [add_parent_scope] on a tree whose tags and payloads agree does not
    throw; it appends the parent's name to the scope of every rule of the
    tree, after the names already there, and changes nothing else: names,
    positions, flags, terms and the shape of the tree are as before. *)
Theorem add_parent_scope_appends_everywhere (parent : string) (rule : Rule) :
  well_formed rule = true ->
  exists rule',
    add_parent_scope parent rule = Some rule'
    /\ map scope (rules_of rule')
       = map (fun rule => scope rule ++ [parent]) (rules_of rule)
    /\ erase_scopes rule' = erase_scopes rule
    /\ well_formed rule' = true.
Proof.
  intros Hwf.
  destruct (add_parent_scope_scopes parent rule Hwf) as (rule' & E & Escopes).
  exists rule'. repeat split; auto.
  - now apply add_parent_scope_erase in E.
  - now rewrite (add_parent_scope_well_formed _ _ _ E).
Qed.

(** [add_parent_scope] throws [std::bad_variant_access] exactly when it
    reaches a rule that is flagged non-terminal and holds a term; the rules
    below a rule flagged terminal are not looked at.  Whether it throws does
    not depend on the name that is added. *)
Theorem add_parent_scope_throws_iff (parent : string) (rule : Rule) :
  add_parent_scope parent rule = None <-> descends rule = false.
Proof.
  induction rule as [term position scope name terminal
                    |children position scope name terminal IH]
    using rule_tree_ind; simpl.
  - destruct (negb terminal); split; congruence.
  - destruct (negb terminal); [|split; congruence].
    assert (Heach : for_each (add_parent_scope parent) children = None <->
                    forallb descends children = false).
    { rewrite for_each_None. clear -IH.
      induction IH as [|child rest Hchild _ IHrest]; simpl.
      - split; [intros Hex; inversion Hex|discriminate].
      - rewrite andb_false_iff, <- Hchild, <- IHrest. split.
        + intros Hex. inversion Hex; subst; auto.
        + intros [E|Hex]; [now left|now right]. }
    destruct (for_each _ children) as [children'|].
    + split; [discriminate|]. intros E. now apply Heach in E.
    + split; [|reflexivity]. intros _. now apply Heach.
Qed.

(** Adding two names one after the other appends both, in that order, to
    every scope of the tree.  The operation is not idempotent: adding the
    same name again appends it again. *)
Theorem add_parent_scope_twice (parent parent' : string) (rule : Rule) :
  well_formed rule = true ->
  exists rule' rule'',
    add_parent_scope parent rule = Some rule'
    /\ add_parent_scope parent' rule' = Some rule''
    /\ map scope (rules_of rule'')
       = map (fun rule => scope rule ++ [parent; parent']) (rules_of rule)
    /\ rule'' <> rule'.
Proof.
  intros Hwf.
  destruct (add_parent_scope_scopes parent rule Hwf) as (rule' & E & Escopes).
  assert (Hwf' : well_formed rule' = true)
    by now rewrite (add_parent_scope_well_formed _ _ _ E).
  destruct (add_parent_scope_scopes parent' rule' Hwf')
    as (rule'' & E' & Escopes').
  exists rule', rule''. repeat split; auto.
  - rewrite Escopes'.
    rewrite <- (map_map scope (fun names => names ++ [parent'])), Escopes.
    rewrite map_map. apply map_ext. intros r. now rewrite <- app_assoc.
  - intros ->. destruct rule' as [value position scope name terminal].
    apply (f_equal (hd [])) in Escopes'. simpl in Escopes'.
    apply (f_equal (@List.length string)) in Escopes'.
    rewrite length_app in Escopes'. simpl in Escopes'. lia.
Qed.

(** ** The other ways out of [parse] *)

(** An indentation that is a multiple of 4 and differs from
    [parent_count * 4] (as [unsigned int]s), be it larger or smaller, makes
    [parse] return the failure sentinel with the one diagnostic
    "unexpected indentation increase" and the cursor where it was. *)
Theorem indentation_mismatch_fails (fuel : nat) (buffer : Buffer)
    (errors : Errors) (parent_count : N) :
  (TextBuffer.indentation buffer mod 4 = 0)%N ->
  TextBuffer.indentation buffer <> uint (parent_count * 4) ->
  parse (S fuel) buffer errors parent_count
  = Return nullptr buffer
      (errors ++ [SyntaxError.make "unexpected indentation increase" buffer]).
Proof.
  intros Hmultiple Hmismatch. cbn [parse]. rewrite Hmultiple.
  destruct (N.eqb_spec (TextBuffer.indentation buffer)
              (uint (parent_count * 4))) as [Heq|_];
    [contradiction|reflexivity].
Qed.

(** A name followed by neither a colon nor three dots: [parse] appends
    "expected ':' or '...'" at the cursor after the name and the spaces,
    skips the block and returns the failure sentinel. *)
Theorem missing_colon_or_dots_fails (fuel : nat) (buffer : Buffer)
    (errors : Errors) (parent_count : N) (rule_name : string)
    (after_name after_colon after_dots : Buffer) :
  (TextBuffer.indentation buffer mod 4 = 0)%N ->
  TextBuffer.indentation buffer = uint (parent_count * 4) ->
  scan_name fuel buffer "" = Some (rule_name, after_name) ->
  rule_name <> "" ->
  TextBuffer.read_char ":" (TextBuffer.skip_space after_name)
    = (false, after_colon) ->
  TextBuffer.read_string "..." after_colon = (false, after_dots) ->
  parse (S fuel) buffer errors parent_count
  = Return nullptr (TextBuffer.skip_block after_dots)
      (errors ++ [SyntaxError.make "expected ':' or '...'" after_dots]).
Proof.
  intros Hmultiple Hdepth Hname Hnonempty Hcolon Hdots.
  cbn [parse new_Rule name value position scope terminal].
  rewrite Hname, Hmultiple, <- Hdepth, !N.eqb_refl. cbn [negb].
  destruct (String.eqb_spec rule_name "") as [Hempty|_]; [contradiction|].
  now rewrite Hcolon, Hdots.
Qed.

(** A terminal declaration whose term fails: [parse] returns the failure
    sentinel after skipping the block from where the term parser stopped;
    the sink is as the term parser left it, [parse] adds no diagnostic of
    its own. *)
Theorem failed_term_fails (fuel : nat) (buffer : Buffer) (errors : Errors)
    (parent_count : N) (rule_name : string)
    (after_name after_colon after_term : Buffer) (errors' : Errors) :
  (TextBuffer.indentation buffer mod 4 = 0)%N ->
  TextBuffer.indentation buffer = uint (parent_count * 4) ->
  scan_name fuel buffer "" = Some (rule_name, after_name) ->
  rule_name <> "" ->
  TextBuffer.read_char ":" (TextBuffer.skip_space after_name)
    = (true, after_colon) ->
  Term.parse (TextBuffer.skip_space_flag true after_colon) errors true
    = Return nullptr after_term errors' ->
  parse (S fuel) buffer errors parent_count
  = Return nullptr (TextBuffer.skip_block after_term) errors'.
Proof.
  intros Hmultiple Hdepth Hname Hnonempty Hcolon Hterm.
  cbn [parse new_Rule name value position scope terminal].
  rewrite Hname, Hmultiple, <- Hdepth, !N.eqb_refl. cbn [negb].
  destruct (String.eqb_spec rule_name "") as [Hempty|_]; [contradiction|].
  now rewrite Hcolon, Hterm.
Qed.

(** ** The child loop on a child that parses *)

(** A child that parses and is followed by the end of its line or of the
    input is appended after the children collected so far, with the name of
    the enclosing rule added to every scope of its tree and nothing else
    changed; no block is skipped and [errors_found] stays as it is. *)
Theorem parsed_child_is_appended (fuel fuel' : nat) (parent_count : N)
    (rule : Rule) (buffer : Buffer) (errors : Errors) (errors_found : bool)
    (children : list Rule) (child : Rule) (after_child : Buffer)
    (errors_of_child : Errors) :
  let parse_child := fun buffer errors =>
    parse fuel buffer errors (uint (parent_count + 1)) in
  TextBuffer.indentation_delta
    (TextBuffer.line_number (position rule)) buffer = 4%Z ->
  parse_child (TextBuffer.skip_whitespace buffer) errors
    = Return (Some child) after_child errors_of_child ->
  TextBuffer.end_reached after_child = true
  \/ TextBuffer.peek_char "010" after_child = true ->
  exists child',
    add_parent_scope (name rule) child = Some child'
    /\ map scope (rules_of child')
       = map (fun below => scope below ++ [name rule]) (rules_of child)
    /\ erase_scopes child' = erase_scopes child
    /\ parse_children parse_child (S fuel') rule buffer errors errors_found
         children
       = parse_children parse_child fuel' rule after_child errors_of_child
           errors_found (children ++ [child']).
Proof.
  intros parse_child Hdelta Hchild Hline.
  assert (Hwf : well_formed child = true).
  { apply parse_accepted in Hchild. apply Hchild. }
  destruct (add_parent_scope_scopes (name rule) child Hwf)
    as (child' & Eadd & Escopes).
  exists child'. repeat split; auto.
  - now apply add_parent_scope_erase in Eadd.
  - cbn [parse_children]. rewrite Hdelta, Hchild, Eadd.
    destruct Hline as [-> | ->]; [reflexivity|].
    now rewrite andb_false_r.
Qed.

(** A child that parses and is followed by something else on its line
    makes the enclosing call throw [ParseLogicError("incomplete rule parse")]
    at that point: the child is dropped, and the sink is as the child left
    it. *)
Theorem incomplete_child_throws (fuel fuel' : nat) (parent_count : N)
    (rule : Rule) (buffer : Buffer) (errors : Errors) (errors_found : bool)
    (children : list Rule) (child : Rule) (after_child : Buffer)
    (errors_of_child : Errors) :
  let parse_child := fun buffer errors =>
    parse fuel buffer errors (uint (parent_count + 1)) in
  TextBuffer.indentation_delta
    (TextBuffer.line_number (position rule)) buffer = 4%Z ->
  parse_child (TextBuffer.skip_whitespace buffer) errors
    = Return (Some child) after_child errors_of_child ->
  TextBuffer.end_reached after_child = false ->
  TextBuffer.peek_char "010" after_child = false ->
  parse_children parse_child (S fuel') rule buffer errors errors_found
    children
  = Throw (ParseLogicError "incomplete rule parse"
             (TextBuffer.position after_child))
      after_child errors_of_child.
Proof.
  intros parse_child Hdelta Hchild Hend Hnewline.
  cbn [parse_children]. now rewrite Hdelta, Hchild, Hend, Hnewline.
Qed.

(** ** What [parse] throws *)

(** The exceptions that leave [parse]: its own two [ParseLogicError]s,
    raised at the final cursor, and whatever [Term::parse] throws, with the
    cursor and the sink of that throw. *)
Definition thrown_by_parse (e : exception Position) (buffer : Buffer)
    (errors : Errors) : Prop :=
  e = ParseLogicError "no rule found" (TextBuffer.position buffer)
  \/ e = ParseLogicError "incomplete rule parse" (TextBuffer.position buffer)
  \/ exists buffer0 errors0,
       Term.parse buffer0 errors0 true = Throw e buffer errors.

Lemma parse_children_throws
    (parse_child : Buffer -> Errors -> Outcome) :
  (forall buffer errors rule buffer' errors',
      parse_child buffer errors = Return (Some rule) buffer' errors' ->
      well_formed rule = true) ->
  (forall buffer errors e buffer' errors',
      parse_child buffer errors = Throw e buffer' errors' ->
      thrown_by_parse e buffer' errors') ->
  forall fuel rule buffer errors errors_found children e buffer' errors',
    parse_children parse_child fuel rule buffer errors errors_found children
      = Throw e buffer' errors' ->
    thrown_by_parse e buffer' errors'.
Proof.
  intros Hreturn Hthrow fuel. induction fuel as [|fuel IH];
    intros rule buffer errors errors_found children e buffer' errors' E;
    simpl in E; [discriminate|].
  destruct (_ <=? 0)%Z.
  { unfold finish_children in E. destruct errors_found; [discriminate|].
    destruct children; discriminate. }
  destruct (negb _); [discriminate|].
  destruct (parse_child _ _) as [[child|] buffer1 errors1|e1 buffer1 errors1|]
    eqn:Echild; try discriminate.
  - destruct (_ && _).
    + injection E as <- <- <-. right. now left.
    + apply Hreturn in Echild.
      destruct (add_parent_scope_scopes (name rule) child Echild)
        as (child' & Eadd & _).
      rewrite Eadd in E. eauto.
  - eauto.
  - injection E as <- <- <-. eauto.
Qed.

(** [parse] throws nothing but ["no rule found"], ["incomplete rule parse"]
    and the exceptions of [Term::parse]; in particular the [std::get] of
    [add_parent_scope] never throws inside [parse].  The exception leaves
    with the cursor and the sink it was raised at: no recovery is done and
    nothing is appended on the way out. *)
Theorem parse_throws_only_its_faults (fuel : nat) :
  forall (buffer : Buffer) (errors : Errors) (parent_count : N)
         (e : exception Position) (buffer' : Buffer) (errors' : Errors),
    parse fuel buffer errors parent_count = Throw e buffer' errors' ->
    e = ParseLogicError "no rule found" (TextBuffer.position buffer')
    \/ e = ParseLogicError "incomplete rule parse"
             (TextBuffer.position buffer')
    \/ exists buffer0 errors0,
         Term.parse buffer0 errors0 true = Throw e buffer' errors'.
Proof.
  change (forall buffer errors parent_count e buffer' errors',
             parse fuel buffer errors parent_count = Throw e buffer' errors' ->
             thrown_by_parse e buffer' errors').
  induction fuel as [|fuel IH];
    intros buffer errors parent_count e buffer' errors' E;
    simpl in E; [discriminate|].
  destruct (negb (_ =? 0)%N); [discriminate|].
  destruct (negb (_ =? _)%N); [discriminate|].
  destruct (scan_name _ _ _) as [[rule_name buffer1]|]; [|discriminate].
  destruct (String.eqb _ _); [injection E as <- <- <-; now left|].
  destruct (TextBuffer.read_char _ _) as [[|] buffer2].
  - destruct (Term.parse _ _ _) as [[term|] buffer3 errors3| |] eqn:Eterm;
      try discriminate.
    injection E as <- <- <-. right. right. eauto.
  - destruct (TextBuffer.read_string _ _) as [[|] buffer3]; [|discriminate].
    destruct (negb (TextBuffer.peek_char _ _));
      (eapply parse_children_throws in E; [exact E| |]);
      intros b0 e0; intros; try (eapply IH; eassumption);
      match goal with
      | Hc : parse _ _ _ _ = Return (Some _) _ _ |- _ =>
        apply parse_accepted in Hc; apply Hc
      end.
Qed.

(** ** Names and positions *)

Lemma flat_map_map {A B C : Type} (f : A -> B) (g : B -> list C)
    (l : list A) :
  flat_map g (map f l) = flat_map (fun a => g (f a)) l.
Proof.
  induction l as [|a l IH]; simpl; [reflexivity|]. now rewrite IH.
Qed.

Lemma names_erase (rule : Rule) :
  map name (rules_of (erase_scopes rule)) = map name (rules_of rule).
Proof.
  induction rule as [term position scope name terminal
                    |children position scope name terminal IH]
    using rule_tree_ind; [reflexivity|].
  cbn [erase_scopes]. rewrite !rules_of_children. simpl. f_equal.
  rewrite flat_map_map, !map_flat_map.
  induction IH as [|child rest Hchild _ IHrest]; simpl; [reflexivity|].
  now rewrite Hchild, IHrest.
Qed.

Lemma add_parent_scope_names (parent : string) (rule rule' : Rule) :
  add_parent_scope parent rule = Some rule' ->
  map name (rules_of rule') = map name (rules_of rule).
Proof.
  intros E. apply add_parent_scope_erase in E.
  now rewrite <- (names_erase rule'), E, names_erase.
Qed.

(** The names of the rules of a tree that [parse] returns all come out of
    the loop of lines 103-109, past the test of line 111. *)
Section NamesOfParsedRules.
Variable P : string -> Prop.
Hypothesis scanned :
  forall fuel (buffer : Buffer) rule_name buffer',
    scan_name fuel buffer "" = Some (rule_name, buffer') ->
    String.eqb rule_name "" = false ->
    P rule_name.

Lemma parse_children_names
    (parse_child : Buffer -> Errors -> Outcome) :
  (forall buffer errors rule buffer' errors',
      parse_child buffer errors = Return (Some rule) buffer' errors' ->
      well_formed rule = true /\ Forall P (map name (rules_of rule))) ->
  forall fuel rule buffer errors errors_found children
         result buffer' errors',
    P (name rule) ->
    Forall (fun child => Forall P (map name (rules_of child))) children ->
    parse_children parse_child fuel rule buffer errors errors_found children
      = Return (Some result) buffer' errors' ->
    Forall P (map name (rules_of result))
    /\ position result = position rule.
Proof.
  intros Hchild fuel. induction fuel as [|fuel IH];
    intros rule buffer errors errors_found children result buffer' errors'
           Hname Hall E; simpl in E; [discriminate|].
  destruct (_ <=? 0)%Z.
  { unfold finish_children in E. destruct errors_found; [discriminate|].
    destruct children as [|child children]; [discriminate|].
    injection E as <- _ _. split; [|reflexivity]. rewrite rules_of_children.
    cbn [map Rule.name]. constructor; [exact Hname|].
    rewrite map_flat_map. apply Forall_flat_map. exact Hall. }
  destruct (negb _); [discriminate|].
  destruct (parse_child _ _) as [[child|] buffer1 errors1| |] eqn:Echild;
    try discriminate.
  - destruct (_ && _); [discriminate|].
    apply Hchild in Echild as [Hwf Hnames].
    destruct (add_parent_scope _ _) as [child'|] eqn:Eadd; [|discriminate].
    eapply IH in E; eauto. apply Forall_app. split; [exact Hall|].
    constructor; [|constructor].
    now rewrite (add_parent_scope_names _ _ _ Eadd).
  - eapply IH in E; eauto.
Qed.

Lemma parse_names (fuel : nat) :
  forall buffer errors parent_count rule buffer' errors',
    parse fuel buffer errors parent_count
      = Return (Some rule) buffer' errors' ->
    Forall P (map name (rules_of rule))
    /\ position rule = TextBuffer.position buffer.
Proof.
  induction fuel as [|fuel IH];
    intros buffer errors parent_count rule buffer' errors' E;
    simpl in E; [discriminate|].
  destruct (negb (_ =? 0)%N); [discriminate|].
  destruct (negb (_ =? _)%N); [discriminate|].
  destruct (scan_name _ _ _) as [[rule_name buffer1]|] eqn:Ename;
    [|discriminate].
  destruct (String.eqb _ _) eqn:Eempty; [discriminate|].
  apply scanned in Ename; [|exact Eempty].
  destruct (TextBuffer.read_char _ _) as [[|] buffer2].
  - destruct (Term.parse _ _ _) as [[term|] buffer3 errors3| |];
      try discriminate.
    injection E as <- _ _. split; [|reflexivity].
    constructor; [exact Ename|constructor].
  - destruct (TextBuffer.read_string _ _) as [[|] buffer3]; [|discriminate].
    destruct (negb (TextBuffer.peek_char _ _));
      (eapply parse_children_names in E; [exact E| |exact Ename|constructor]);
      intros b0 e0 r0 b0' e0' Hr0;
      (split; [apply parse_accepted in Hr0; apply Hr0
              |eapply IH; exact Hr0]).
Qed.
End NamesOfParsedRules.

(** In every tree that [parse] returns, no rule has an empty name, and the
    position of the root is the position the cursor had when [parse] was
    called. *)
Theorem parsed_rules_are_named (fuel : nat) (buffer : Buffer)
    (errors : Errors) (parent_count : N) (rule : Rule) (buffer' : Buffer)
    (errors' : Errors) :
  parse fuel buffer errors parent_count = Return (Some rule) buffer' errors' ->
  Forall (fun below => name below <> "") (rules_of rule)
  /\ position rule = TextBuffer.position buffer.
Proof.
  intros E.
  apply (parse_names (fun rule_name => rule_name <> "")) in E.
  - destruct E as [Hnames Hposition]. split; [|exact Hposition].
    exact (proj1 (Forall_map name (fun rule_name => rule_name <> "")
                    (rules_of rule)) Hnames).
  - intros fuel0 buffer0 rule_name buffer0' _ Eempty.
    now apply String.eqb_neq.
Qed.

Lemma list_ascii_of_string_app (left_part right_part : string) :
  list_ascii_of_string (left_part ++ right_part)
  = list_ascii_of_string left_part ++ list_ascii_of_string right_part.
Proof.
  induction left_part as [|c left_part IH]; simpl; [reflexivity|].
  now rewrite IH.
Qed.

(** The loop of the name stops in front of a character that is not in
    [a-z_]; when [read] returns the character that [peek] shows, what it has
    appended is of [a-z_] only. *)
Lemma scan_name_scans (fuel : nat) :
  forall (buffer : Buffer) name_so_far rule_name buffer',
    scan_name fuel buffer name_so_far = Some (rule_name, buffer') ->
    is_name_character (TextBuffer.peek buffer') = false
    /\ ((forall buffer : Buffer,
           fst (TextBuffer.read buffer) = TextBuffer.peek buffer) ->
        forallb is_name_character (list_ascii_of_string name_so_far) = true ->
        forallb is_name_character (list_ascii_of_string rule_name) = true).
Proof.
  induction fuel as [|fuel IH];
    intros buffer name_so_far rule_name buffer' E; simpl in E;
    [discriminate|].
  destruct (is_name_character (TextBuffer.peek buffer)) eqn:Epeek.
  - pose proof (fun Hread : forall buffer : Buffer,
                    fst (TextBuffer.read buffer) = TextBuffer.peek buffer =>
                  Hread buffer) as Hhere.
    destruct (TextBuffer.read buffer) as [character buffer1].
    apply IH in E as [Hstop Hchars]. split; [exact Hstop|].
    intros Hread Hsofar. apply Hchars; [exact Hread|].
    rewrite list_ascii_of_string_app, forallb_app, Hsofar. simpl.
    specialize (Hhere Hread). simpl in Hhere. subst character.
    now rewrite Epeek.
  - injection E as <- <-. split; [exact Epeek|]. auto.
Qed.

(** With a cursor whose [read] returns the character that [peek] shows,
    every rule of a tree that [parse] returns has a name of the grammar: not
    empty, and made of [a-z_] only. *)
Theorem parsed_rules_have_valid_names (fuel : nat) (buffer : Buffer)
    (errors : Errors) (parent_count : N) (rule : Rule) (buffer' : Buffer)
    (errors' : Errors) :
  (forall buffer : Buffer,
      fst (TextBuffer.read buffer) = TextBuffer.peek buffer) ->
  parse fuel buffer errors parent_count = Return (Some rule) buffer' errors' ->
  Forall (fun below => valid_name (name below) = true) (rules_of rule).
Proof.
  intros Hread E.
  apply (parse_names (fun rule_name => valid_name rule_name = true)) in E.
  - destruct E as [Hnames _].
    exact (proj1 (Forall_map name
                    (fun rule_name => valid_name rule_name = true)
                    (rules_of rule)) Hnames).
  - intros fuel0 buffer0 rule_name buffer0' Ename Eempty.
    unfold valid_name. rewrite Eempty. simpl.
    apply scan_name_scans in Ename as [_ Hchars]. now apply Hchars.
Qed.

(** ** Scopes and depth *)

Lemma scoped_depth (rule : Rule) :
  forall ancestors,
    scoped_innermost_first ancestors rule = true ->
    depth_scoped (List.length ancestors) rule = true.
Proof.
  induction rule as [term position scope name terminal
                    |children position scope name terminal IH]
    using rule_tree_ind; intros ancestors Hscoped; simpl in *;
    apply andb_true_iff in Hscoped as [Hscope Hbelow];
    apply names_eqb_eq in Hscope; subst scope;
    rewrite Nat.eqb_refl; [reflexivity|]. simpl.
  apply forallb_Forall. apply forallb_Forall in Hbelow.
  rewrite Forall_forall in *. intros child Hin.
  apply (IH child Hin (name :: ancestors)). now apply Hbelow.
Qed.

(** In every tree that [parse] returns, the size of the scope of a rule is
    its depth in the tree: 0 for the root, 1 for its children, and so on. *)
Theorem parsed_scopes_measure_depth (fuel : nat) (buffer : Buffer)
    (errors : Errors) (parent_count : N) (rule : Rule) (buffer' : Buffer)
    (errors' : Errors) :
  parse fuel buffer errors parent_count = Return (Some rule) buffer' errors' ->
  depth_scoped 0 rule = true.
Proof.
  intros E. apply parse_accepted in E as [_ Hscoped].
  now apply scoped_depth in Hscoped.
Qed.

(** ** The printer *)

Lemma string_app_assoc (a b c : string) :
  ((a ++ b) ++ c)%string = (a ++ b ++ c)%string.
Proof.
  induction a as [|character a IH]; simpl; [reflexivity|]. now rewrite IH.
Qed.

Lemma string_app_nil_r (a : string) : (a ++ "")%string = a.
Proof.
  induction a as [|character a IH]; simpl; [reflexivity|]. now rewrite IH.
Qed.

Lemma join_app (texts texts' : list string) :
  join (texts ++ texts') = (join texts ++ join texts')%string.
Proof.
  induction texts as [|text texts IH]; simpl; [reflexivity|].
  now rewrite IH, string_app_assoc.
Qed.

Lemma join_flat_map {A : Type} (lines_of : A -> list string) (l : list A) :
  join (flat_map lines_of l) = join (map (fun a => join (lines_of a)) l).
Proof.
  induction l as [|a l IH]; simpl; [reflexivity|].
  now rewrite join_app, IH.
Qed.

Abbreviation newline := (String "010" "").

(** The line of a rule and its newline. *)
Definition ended (rule : Rule) : string := (line rule ++ newline)%string.

(** What a child contributes to the text of its parent: its own text, and
    a newline if it is terminal. *)
Lemma listing_of_child (rule : Rule) :
  well_formed rule = true ->
  (if terminal rule then listing rule ++ newline else listing rule)%string
  = join (map ended (rules_of rule)).
Proof.
  destruct rule as [[[term|]|children] position scope name [|]];
    simpl; try discriminate; intros _; unfold listing; simpl.
  - now rewrite string_app_nil_r.
  - reflexivity.
Qed.

Lemma print_each_listing (children : list Rule) :
  Forall (fun child => well_formed child = true) children ->
  Forall (fun child => print child = written (listing child)) children ->
  print_each print terminal children
  = written (join (flat_map (fun child => map ended
                                              (rules_of child)) children)).
Proof.
  intros Hwf Hprint. rewrite join_flat_map.
  induction Hprint as [|child rest Hchild _ IH]; simpl; [reflexivity|].
  inversion Hwf as [|? ? Hwf1 Hwfs]; subst.
  rewrite Hchild, (IH Hwfs). simpl.
  now rewrite <- (listing_of_child child Hwf1).
Qed.

Lemma short_scopes_children (children : list Rule) (position : Position)
    (scope : list string) (name : string) (terminal : bool) :
  short_scopes (mk (children_value children) position scope name terminal)
    = true ->
  Forall (fun child => short_scopes child = true) children.
Proof.
  unfold short_scopes. rewrite rules_of_children. simpl.
  intros Hshort. apply andb_true_iff in Hshort as [_ Hbelow].
  apply forallb_Forall in Hbelow. apply Forall_flat_map in Hbelow.
  eapply Forall_impl; [|exact Hbelow].
  intros child Hchild. now apply forallb_Forall.
Qed.

(** [operator<<] on a tree whose tags and payloads agree and whose scopes
    are shorter than [2^32] returns, and what it has written is one line for
    each rule of the tree, the root first and the children in their order:
    four spaces for each name of the scope of the rule, its name, and then
    [": "] and the term, or ["..."].  Every line ends with a newline, except
    that a terminal rule printed on its own is not followed by one. *)
Theorem print_lists_the_rules (rule : Rule) :
  well_formed rule = true ->
  short_scopes rule = true ->
  print rule = written (listing rule).
Proof.
  induction rule as [term position scope name terminal
                    |children position scope name terminal IH]
    using rule_tree_ind; intros Hwf Hshort.
  - simpl in Hwf. apply andb_true_iff in Hwf as [-> Hterm].
    destruct term as [term|]; [|discriminate].
    unfold short_scopes in Hshort. simpl in Hshort.
    rewrite andb_true_r in Hshort. apply N.ltb_lt in Hshort.
    cbn [print].
    destruct (N.leb_spec UINT_MOD (N.of_nat (List.length scope)));
      [lia|]. reflexivity.
  - pose proof (short_scopes_children _ _ _ _ _ Hshort) as Hbelow.
    unfold short_scopes in Hshort. rewrite rules_of_children in Hshort.
    simpl in Hshort. apply andb_true_iff in Hshort as [Hscope _].
    apply N.ltb_lt in Hscope.
    simpl in Hwf. apply andb_true_iff in Hwf as [Hwf Hall].
    apply andb_true_iff in Hwf as [Hflag _].
    apply negb_true_iff in Hflag. subst terminal.
    apply forallb_Forall in Hall.
    cbn [print].
    destruct (N.leb_spec UINT_MOD (N.of_nat (List.length scope)));
      [lia|].
    rewrite print_each_listing; [|exact Hall|].
    + unfold listing. cbn [Rule.terminal]. rewrite rules_of_children.
      cbn [map join after]. unfold line, body. cbn [Rule.value Rule.scope
                                                    Rule.name].
      rewrite map_flat_map. f_equal.
      now rewrite !string_app_assoc.
    + rewrite Forall_forall in *. intros child Hin.
      apply (IH child Hin); [now apply Hall|now apply Hbelow].
Qed.

Lemma flat_map_Forall {A B : Type} (f g : A -> list B) (l : list A) :
  Forall (fun a => f a = g a) l -> flat_map f l = flat_map g l.
Proof.
  induction 1 as [|a l E _ IH]; simpl; [reflexivity|]. now rewrite E, IH.
Qed.

Lemma lines_outline (rule : Rule) :
  forall depth,
    well_formed rule = true ->
    depth_scoped depth rule = true ->
    map ended (rules_of rule) = outline depth rule.
Proof.
  induction rule as [term position scope name terminal
                    |children position scope name terminal IH]
    using rule_tree_ind; intros depth Hwf Hdepth; simpl in Hdepth;
    apply andb_true_iff in Hdepth as [Hscope Hbelow];
    apply Nat.eqb_eq in Hscope; subst depth.
  - simpl. unfold ended, line, body. simpl. now rewrite !string_app_assoc.
  - simpl in Hwf. apply andb_true_iff in Hwf as [_ Hall].
    apply forallb_Forall in Hall. apply forallb_Forall in Hbelow.
    rewrite rules_of_children. cbn [map outline]. f_equal.
    + unfold ended, line, body. simpl. now rewrite !string_app_assoc.
    + rewrite map_flat_map. apply flat_map_Forall.
      rewrite Forall_forall in *. intros child Hin.
      apply (IH child Hin); [now apply Hall|now apply Hbelow].
Qed.

(** Printing a tree that [parse] returned (with scopes shorter than [2^32])
    writes the outline of the tree: each rule on a line of its own, indented
    by four spaces for each rule that encloses it, in the order of the
    source.  A terminal root is written without the final newline. *)
Theorem parsed_tree_prints_its_outline (fuel : nat) (buffer : Buffer)
    (errors : Errors) (parent_count : N) (rule : Rule) (buffer' : Buffer)
    (errors' : Errors) :
  parse fuel buffer errors parent_count = Return (Some rule) buffer' errors' ->
  short_scopes rule = true ->
  exists text,
    print rule = written text
    /\ (if terminal rule then text ++ newline else text)%string
       = join (outline 0 rule).
Proof.
  intros E Hshort. apply parse_accepted in E as [Hwf Hscoped].
  exists (listing rule). split; [now apply print_lists_the_rules|].
  rewrite (listing_of_child rule Hwf). f_equal.
  apply lines_outline; [exact Hwf|].
  now apply scoped_depth in Hscoped.
Qed.

End Generic.

(** ** On texts *)
Section OnText.
Import StringBuffer Examples.

Lemma read_returns_peek (buffer : Buffer) :
  fst (TextBuffer.read buffer) = TextBuffer.peek buffer.
Proof.
  unfold TextBuffer.read, TextBuffer.peek. simpl. unfold read, peek.
  now destruct (remaining buffer).
Qed.

Lemma add_parent_scope_appends_everywhere_witness :
  well_formed siblings_tree = true
  /\ exists rule',
       add_parent_scope "top" siblings_tree = Some rule'
       /\ map scope (rules_of rule') = [["top"]; ["foo"; "top"]; ["foo"; "top"]].
Proof.
  assert (Hwf : well_formed siblings_tree = true) by (vm_compute; reflexivity).
  split; [exact Hwf|].
  destruct (add_parent_scope_appends_everywhere "top" siblings_tree Hwf)
    as (rule' & E & Escopes & _).
  exists rule'. split; [exact E|]. rewrite Escopes. reflexivity.
Defined.

Lemma add_parent_scope_twice_witness :
  exists rule'',
    match add_parent_scope "top" siblings_tree with
    | Some rule' => add_parent_scope "over" rule' = Some rule''
    | None => False
    end
    /\ map scope (rules_of rule'')
       = [["top"; "over"]; ["foo"; "top"; "over"]; ["foo"; "top"; "over"]].
Proof.
  destruct (add_parent_scope_twice "top" "over" siblings_tree
              ltac:(vm_compute; reflexivity))
    as (rule' & rule'' & E & E' & Escopes & _).
  exists rule''. rewrite E. split; [exact E'|]. rewrite Escopes. reflexivity.
Defined.

Lemma indentation_mismatch_fails_witness :
  indentation (start terminal_text) = 0%N
  /\ parse 1 (start terminal_text) [] 1
     = Return nullptr (start terminal_text)
         [diagnostic "unexpected indentation increase" 0 1 1].
Proof.
  split; [vm_compute; reflexivity|].
  apply (indentation_mismatch_fails 0 (start terminal_text) [] 1);
    vm_compute; [reflexivity|discriminate].
Defined.

Lemma missing_colon_or_dots_fails_witness :
  parse_text 50 missing_colon_text
  = Return nullptr (cursor missing_colon_text 7 1 8)
      [diagnostic "expected ':' or '...'" 4 1 5].
Proof.
  unfold parse_text.
  rewrite (missing_colon_or_dots_fails 49 (start missing_colon_text) [] 0
             "foo" (cursor missing_colon_text 3 1 4)
             (cursor missing_colon_text 4 1 5)
             (cursor missing_colon_text 4 1 5));
    try (vm_compute; reflexivity).
  discriminate.
Defined.

Lemma failed_term_fails_witness :
  parse_text 50 failing_term_text
  = Return nullptr (cursor failing_term_text 6 1 7)
      [diagnostic "expected a term" 5 1 6].
Proof.
  unfold parse_text.
  rewrite (failed_term_fails 49 (start failing_term_text) [] 0 "foo"
             (cursor failing_term_text 3 1 4)
             (cursor failing_term_text 4 1 5)
             (cursor failing_term_text 5 1 6)
             [diagnostic "expected a term" 5 1 6]);
    try (vm_compute; reflexivity).
  discriminate.
Defined.

Lemma parsed_child_is_appended_witness :
  exists child',
    add_parent_scope "foo" bar_parsed = Some child'
    /\ map scope (rules_of child') = [["foo"]]
    /\ parse_children (fun buffer errors => parse 48 buffer errors (uint (0 + 1)))
         49 foo_at_loop (cursor siblings_text 6 1 7) [] false []
       = parse_children
           (fun buffer errors => parse 48 buffer errors (uint (0 + 1)))
           48 foo_at_loop (cursor siblings_text 17 2 11) [] false [child'].
Proof.
  assert (Hdelta :
            TextBuffer.indentation_delta
              (TextBuffer.line_number (position foo_at_loop))
              (cursor siblings_text 6 1 7) = 4%Z)
    by (vm_compute; reflexivity).
  assert (Echild :
            parse 48 (TextBuffer.skip_whitespace (cursor siblings_text 6 1 7))
              [] (uint (0 + 1))
            = Return (Some bar_parsed) (cursor siblings_text 17 2 11) [])
    by (vm_compute; reflexivity).
  assert (Hline :
            TextBuffer.end_reached (cursor siblings_text 17 2 11) = true
            \/ TextBuffer.peek_char "010" (cursor siblings_text 17 2 11)
               = true)
    by (right; vm_compute; reflexivity).
  destruct (parsed_child_is_appended 48 48 0 foo_at_loop
              (cursor siblings_text 6 1 7) [] false [] bar_parsed
              (cursor siblings_text 17 2 11) [] Hdelta Echild Hline)
    as (child' & Eadd & Escopes & _ & Estep).
  exists child'. split; [exact Eadd|]. split; [|exact Estep].
  rewrite Escopes. reflexivity.
Defined.

Lemma incomplete_child_throws_witness :
  parse_children (fun buffer errors => parse 48 buffer errors (uint (0 + 1)))
    49 foo_at_loop (cursor incomplete_text 6 1 7) [] false []
  = Throw (ParseLogicError "incomplete rule parse" (at_position 17 2 11))
      (cursor incomplete_text 17 2 11) []
  /\ parse_text 50 incomplete_text
     = Throw (ParseLogicError "incomplete rule parse" (at_position 17 2 11))
         (cursor incomplete_text 17 2 11) [].
Proof.
  split; [|vm_compute; reflexivity].
  apply (incomplete_child_throws 48 48 0 foo_at_loop
           (cursor incomplete_text 6 1 7) [] false [] bar_parsed
           (cursor incomplete_text 17 2 11) []);
    vm_compute; reflexivity.
Defined.

Lemma parse_throws_only_its_faults_witness :
  parse_text 50 incomplete_text
  = Throw (ParseLogicError "incomplete rule parse" (at_position 17 2 11))
      (cursor incomplete_text 17 2 11) []
  /\ (ParseLogicError "incomplete rule parse" (at_position 17 2 11)
      = ParseLogicError "no rule found" (at_position 17 2 11)
      \/ ParseLogicError "incomplete rule parse" (at_position 17 2 11)
         = ParseLogicError "incomplete rule parse" (at_position 17 2 11)
      \/ exists buffer0 errors0,
           Term.parse buffer0 errors0 true
           = Throw (ParseLogicError "incomplete rule parse"
                      (at_position 17 2 11))
               (cursor incomplete_text 17 2 11) []).
Proof.
  assert (E : parse_text 50 incomplete_text
              = Throw (ParseLogicError "incomplete rule parse"
                         (at_position 17 2 11))
                  (cursor incomplete_text 17 2 11) [])
    by (vm_compute; reflexivity).
  split; [exact E|].
  exact (parse_throws_only_its_faults 50 _ _ _ _ _ _ E).
Defined.

Lemma parsed_rules_are_named_witness :
  Forall (fun below => name below <> "") (rules_of nested_tree)
  /\ position nested_tree = at_position 0 1 1.
Proof.
  apply (parsed_rules_are_named 50 (start nested_text) [] 0 nested_tree
           (cursor nested_text 32 3 15) []).
  vm_compute. reflexivity.
Defined.

Lemma parsed_rules_have_valid_names_witness :
  Forall (fun below => valid_name (name below) = true) (rules_of nested_tree).
Proof.
  apply (parsed_rules_have_valid_names 50 (start nested_text) [] 0 nested_tree
           (cursor nested_text 32 3 15) [] read_returns_peek).
  vm_compute. reflexivity.
Defined.

Lemma parsed_scopes_measure_depth_witness :
  depth_scoped 0 nested_tree = true.
Proof.
  apply (parsed_scopes_measure_depth 50 (start nested_text) [] 0 nested_tree
           (cursor nested_text 32 3 15) []).
  vm_compute. reflexivity.
Defined.

Lemma print_lists_the_rules_witness :
  print siblings_tree
  = written ("foo..." ++ nl ++ "    bar: a" ++ nl ++ "    baz: b" ++ nl).
Proof.
  rewrite (print_lists_the_rules siblings_tree);
    vm_compute; reflexivity.
Defined.

Lemma parsed_tree_prints_its_outline_witness :
  exists text,
    print nested_tree = written text
    /\ text = ("foo..." ++ nl ++ "    bar..." ++ nl ++ "        qux: a" ++ nl)%string.
Proof.
  assert (E : parse 50 (start nested_text) [] 0
              = Return (Some nested_tree) (cursor nested_text 32 3 15) [])
    by (vm_compute; reflexivity).
  assert (Hshort : short_scopes nested_tree = true)
    by (vm_compute; reflexivity).
  destruct (parsed_tree_prints_its_outline 50 (start nested_text) [] 0
              nested_tree (cursor nested_text 32 3 15) [] E Hshort)
    as (text & Eprint & Eoutline).
  exists text. split; [exact Eprint|].
  simpl in Eoutline. rewrite Eoutline. vm_compute. reflexivity.
Defined.

End OnText.
End RuleMore.
